(** * Parkinson movement detector: sampling, band energies and classification

    A shallow embedding of [src/main.cpp] (the real-FFT detector running on
    the DISCO-L475VG-IOT01A board) and the properties its specification
    states about it.

    Conventions of the embedding.
    - A C [float] is an exact rational ([Q]); rounding of binary32 is not
      represented.  The division of the fog ratio, the one operation whose
      result can leave the finite range, yields an [fval]: an infinity or a
      NaN on a zero divisor, and an infinity when the exact quotient reaches
      the overflow threshold of binary32.
    - [int], [int16_t] and [uint8_t] are [Z] with the wrap-around of each
      conversion written out.
    - The global arrays [accel_buf], [gyro_buf], [fft_in] are lists, written
      by index.
    - The I2C bus, [sqrtf] and the CMSIS transform are collaborators of the
      program: the bus is an oracle answering each register access, threaded
      through a state monad together with the indeterminate content of
      uninitialised locals; the two numeric routines are section variables. *)

From Stdlib Require Import ZArith QArith Qround Qfield Lqa Lia Bool List.
From Stdlib Require Import Ascii String DecimalString.
From stdpp Require Import base list.
Import ListNotations.

Local Open Scope Q_scope.

(** ** Comparisons on rationals, as the C operators *)

Definition Qgtb (x y : Q) : bool := negb (Qle_bool x y).
Definition Qltb (x y : Q) : bool := negb (Qle_bool y x).
Definition Qgeb (x y : Q) : bool := Qle_bool y x.
Definition Qleb (x y : Q) : bool := Qle_bool x y.

(** ** Results of a floating division

    [x / y] in C never traps: a zero divisor gives an infinity or a NaN, and
    a quotient too large for binary32 gives an infinity. *)

Inductive fval : Type :=
  | Fin (q : Q)
  | PInf
  | NInf
  | NaN.

(** The overflow threshold of binary32 under round-to-nearest: an exact
    result of magnitude at least 2^128 - 2^103 (half an ulp above the
    largest finite value, about 3.4e38) becomes an infinity. *)
Definition FLT_OVERFLOW : Q := inject_Z (2 ^ 128 - 2 ^ 103).

Definition fdiv (x y : Q) : fval :=
  if Qeq_bool y 0 then
    match x ?= 0 with
    | Gt => PInf
    | Lt => NInf
    | Eq => NaN
    end
  else if Qle_bool FLT_OVERFLOW (x / y) then PInf
  else if Qle_bool (x / y) (- FLT_OVERFLOW) then NInf
  else Fin (x / y).

(** [v > t] for a threshold [t]; every comparison with a NaN is false. *)
Definition fgt (v : fval) (t : Q) : bool :=
  match v with
  | Fin q => Qgtb q t
  | PInf => true
  | NInf => false
  | NaN => false
  end.


(** ** Classifier (main.cpp, lines 185-210) *)

Module Classifier.

(** The literals of the decision logic. *)
Definition EPSILON : Q := 0.0001.
Definition TREMOR_THRESH : Q := 5.0.
Definition DYSK_THRESH : Q := 5.0.
Definition WALK_THRESH : Q := 5.0.
Definition FOG_RATIO_THRESH : Q := 3.0.
Definition DOMINANCE_RATIO : Q := 1.2.

(** The four band energies of one window (locals [walk], [fog], [tremor],
    [dysk] of [main]). *)
Record BandEnergySet : Type := mkBands {
  walk : Q;
  fog : Q;
  tremor : Q;
  dysk : Q
}.

Definition nonneg (e : BandEnergySet) : Prop :=
  0 <= walk e /\ 0 <= fog e /\ 0 <= tremor e /\ 0 <= dysk e.

(** The three indicator outputs. *)
Record leds : Type := mkLeds {
  led_tremor : bool;
  led_dysk : bool;
  led_freeze : bool
}.

Definition set_led_tremor (l : leds) (b : bool) : leds :=
  mkLeds b (led_dysk l) (led_freeze l).
Definition set_led_dysk (l : leds) (b : bool) : leds :=
  mkLeds (led_tremor l) b (led_freeze l).
Definition set_led_freeze (l : leds) (b : bool) : leds :=
  mkLeds (led_tremor l) (led_dysk l) b.

Definition fog_ratio (e : BandEnergySet) : fval :=
  fdiv (fog e) (walk e + EPSILON).

Definition tremor_present (e : BandEnergySet) : bool :=
  Qgtb (tremor e) TREMOR_THRESH.
Definition dysk_present (e : BandEnergySet) : bool :=
  Qgtb (dysk e) DYSK_THRESH.
Definition low_walk (e : BandEnergySet) : bool :=
  Qltb (walk e) WALK_THRESH.

(** [bool freezing = false; if (...) freezing = true;] *)
Definition freezing (e : BandEnergySet) : bool :=
  if fgt (fog_ratio e) FOG_RATIO_THRESH && low_walk e && negb (dysk_present e)
  then true else false.

(** The two dominance tests of the non-freezing branch. *)
Definition tremor_dominates (e : BandEnergySet) : bool :=
  Qgtb (tremor e) (dysk e * DOMINANCE_RATIO).
Definition dysk_dominates (e : BandEnergySet) : bool :=
  Qgtb (dysk e) (tremor e * DOMINANCE_RATIO).

(** The LED block: all three cleared, then set by the rules in order. *)
Definition drive_leds (e : BandEnergySet) : leds :=
  let l0 := mkLeds false false false in
  if freezing e then
    let l1 := set_led_freeze l0 true in
    if tremor_present e then set_led_tremor l1 true else l1
  else
    let l1 :=
      if low_walk e && tremor_present e && tremor_dominates e
      then set_led_tremor l0 true else l0 in
    if low_walk e && dysk_present e && dysk_dominates e
    then set_led_dysk l1 true else l1.

(** The three flags printed after the LEDs are driven (lines 218-220):
    the tremor and dyskinesia flags repeat the tests of the non-freezing
    branch, whichever branch was taken. *)
Record telemetry : Type := mkTelemetry {
  printed_freeze : bool;
  printed_tremor : bool;
  printed_dysk : bool
}.

Definition print_flags (e : BandEnergySet) : telemetry :=
  mkTelemetry (freezing e)
              (low_walk e && tremor_present e && tremor_dominates e)
              (low_walk e && dysk_present e && dysk_dominates e).

(** The classification state read by the output sink. *)
Definition tremorFlag (e : BandEnergySet) : bool := led_tremor (drive_leds e).
Definition dyskinesiaFlag (e : BandEnergySet) : bool := led_dysk (drive_leds e).
Definition freezingFlag (e : BandEnergySet) : bool := led_freeze (drive_leds e).

End Classifier.

(** ** The world outside the program: I2C bus and uninitialised storage *)

Module Sensor.

Local Open Scope Z_scope.

(** Register map of the LSM6DSL used by [read_axis]. *)
Definition OUTX_L_XL : Z := 0x28.
Definition OUTY_L_XL : Z := 0x2A.
Definition OUTZ_L_XL : Z := 0x2C.
Definition OUTX_L_G : Z := 0x22.
Definition OUTY_L_G : Z := 0x24.
Definition OUTZ_L_G : Z := 0x26.

(** What one register access sees on the bus: the status returned by
    [i2c.write] (0 is an acknowledge), the status returned by [i2c.read], and
    the byte the read leaves in [r]. *)
Record i2c_txn : Type := mkTxn {
  write_status : Z;
  read_status : Z;
  read_byte : Z
}.

(** The bus answers the [n]-th access to register [reg]; [junk n] is the
    indeterminate content of the [n]-th uninitialised [uint8_t] local. *)
Record world : Type := mkWorld {
  bus : nat -> Z -> i2c_txn;
  bus_pos : nat;
  junk : nat -> Z;
  junk_pos : nat
}.

Definition M (A : Type) : Type := world -> A * world.

Definition ret {A : Type} (a : A) : M A := fun w => (a, w).

Definition bind {A B : Type} (m : M A) (k : A -> M B) : M B :=
  fun w => let (a, w') := m w in k a w'.

Notation "x <- c ;; k" := (bind c (fun x => k))
  (at level 100, c at next level, right associativity).

Definition i2c_access (reg : Z) : M i2c_txn :=
  fun w => (bus w (bus_pos w) reg,
            mkWorld (bus w) (S (bus_pos w)) (junk w) (junk_pos w)).

Definition uninit_uint8 : M Z :=
  fun w => (junk w (junk_pos w) mod 256,
            mkWorld (bus w) (bus_pos w) (junk w) (S (junk_pos w))).

(** [bool read_reg(uint8_t reg, uint8_t &val)]: the result pairs the returned
    flag with the content of [val] after the call. *)
Definition read_reg (reg : Z) (val : Z) : M (bool * Z) :=
  t <- i2c_access reg ;;
  if negb (write_status t =? 0) then ret (false, val)
  else if negb (read_status t =? 0) then ret (false, val)
  else ret (true, read_byte t mod 256).

(** An access that makes [read_reg] return [false]. *)
Definition txn_fails (t : i2c_txn) : bool :=
  negb (write_status t =? 0) || negb (read_status t =? 0).

Definition is_int16 (v : Z) : Prop := -32768 <= v < 32768.

(** Conversion of an [int] to [int16_t]. *)
Definition to_int16 (u : Z) : Z :=
  let m := u mod 65536 in
  if m <? 32768 then m else m - 65536.

(** [int16_t read_axis(uint8_t low_addr)]: [lo] and [hi] below are the
    results of the two [read_reg] calls; only the byte ([snd]) of each is
    used, the returned flag ([fst]) is dropped. *)
Definition read_axis (low_addr : Z) : M Z :=
  lo0 <- uninit_uint8 ;;
  hi0 <- uninit_uint8 ;;
  lo <- read_reg low_addr lo0 ;;
  hi <- read_reg ((low_addr + 1) mod 256) hi0 ;;
  ret (to_int16 (Z.lor (Z.shiftl (snd hi) 8) (snd lo))).

(** A bus on which every access is refused. *)
Definition dead_bus : nat -> Z -> i2c_txn := fun _ _ => mkTxn 1 1 0.

(** Identity and control registers used at start-up. *)
Definition WHO_AM_I : Z := 0x0F.
Definition CTRL1_XL : Z := 0x10.
Definition CTRL2_G : Z := 0x11.
Definition CTRL3_C : Z := 0x12.

(** A register write as it leaves the program: the register, the value and
    whether the device acknowledged the transfer. *)
Record reg_write : Type := mkWrite {
  w_reg : Z;
  w_val : Z;
  w_acked : bool
}.

(** [void write_reg(uint8_t reg, uint8_t val)]: one bus access whose status
    is dropped.  The writes issued so far are collected in [log]. *)
Definition write_reg (reg val : Z) (log : list reg_write) : M (list reg_write) :=
  t <- i2c_access reg ;;
  ret (log ++ [mkWrite reg val (write_status t =? 0)]).

(** [bool init_sensor()]: [who] is an uninitialised local and the flag
    returned by [read_reg] is dropped.  The result pairs the returned flag
    with the configuration writes that were issued. *)
Definition init_sensor : M (bool * list reg_write) :=
  who0 <- uninit_uint8 ;;
  who <- read_reg WHO_AM_I who0 ;;
  if negb (snd who =? 0x6A) then ret (false, [])
  else
    l1 <- write_reg CTRL3_C 0x44 [] ;;
    l2 <- write_reg CTRL1_XL 0x40 l1 ;;
    l3 <- write_reg CTRL2_G 0x40 l2 ;;
    ret (true, l3).

(** The content of [val] after [read_reg] met the access [t], [stale]
    being its content before. *)
Definition byte_after (t : i2c_txn) (stale : Z) : Z :=
  if txn_fails t then stale else read_byte t mod 256.

(** The identity byte [init_sensor] compares with 0x6A in world [w]. *)
Definition who_seen (w : world) : Z :=
  byte_after (bus w (bus_pos w) WHO_AM_I) (junk w (junk_pos w) mod 256).

(** A bus on which every access succeeds and register [reg] reads as
    [regs reg]. *)
Definition live_bus (regs : Z -> Z) : nat -> Z -> i2c_txn :=
  fun _ reg => mkTxn 0 0 (regs reg).

End Sensor.

(** ** Console output (main.cpp, lines 84-89) *)

Module Console.

Local Open Scope string_scope.

(** Conversion of a [float] to [int]: truncation toward zero.  It is
    undefined in C when the truncated value is not an [int]. *)
Definition to_int (v : Q) : Z :=
  if Qle_bool 0 v then Qfloor v else Qceiling v.

Definition in_int_range (v : Q) : Prop :=
  (inject_Z (-2147483648) - 1 < v /\ v < inject_Z 2147483648)%Q.

(** The two integers [ip] and [fp] that [print_float] hands to [printf]. *)
Definition float_fields (v : Q) : Z * Z :=
  let ip := to_int v in
  let fp := to_int ((v - inject_Z ip) * 1000)%Q in
  let fp := if (fp <? 0)%Z then (- fp)%Z else fp in
  (ip, fp).

(** [%d] *)
Definition decimal (n : Z) : string := NilZero.string_of_int (Z.to_int n).

Fixpoint zeros (n : nat) : string :=
  match n with
  | O => ""
  | S n' => String "0" (zeros n')
  end.

(** [%03d]: sign, then zeros up to a total width of three, then digits. *)
Definition decimal03 (n : Z) : string :=
  let digits := decimal (Z.abs n) in
  let sign := if (n <? 0)%Z then "-" else "" in
  sign ++ zeros (3 - String.length sign - String.length digits) ++ digits.

(** [printf("%s%d.%03d", label, ip, fp)] *)
Definition print_float (label : string) (v : Q) : string :=
  let (ip, fp) := float_fields v in
  label ++ decimal ip ++ "." ++ decimal03 fp.

End Console.

(** ** Build-time parameters *)

Definition SAMPLE_RATE : Z := 52.
Definition WINDOW_SEC : Z := 3.
Definition RAW_SAMPLES : Z := SAMPLE_RATE * WINDOW_SEC.
Definition FFT_SIZE : Z := 256.

(** ** Band energy extraction (main.cpp, lines 156-163 and 178-183) *)

Module Extractor.

(** [(float)SAMPLE_RATE / FFT_SIZE] *)
Definition hz_per_bin : Q := inject_Z SAMPLE_RATE / inject_Z FFT_SIZE.

(** [float f = k * hz_per_bin] *)
Definition bin_freq (k : nat) : Q := inject_Z (Z.of_nat k) * hz_per_bin.

(** The four tests on [f], as written in the two loops. *)
Definition in_walk (f : Q) : bool := Qgeb f 0.5 && Qleb f 3.0.
Definition in_fog (f : Q) : bool := Qgtb f 3.0 && Qleb f 8.0.
Definition in_tremor (f : Q) : bool := Qgeb f 3.0 && Qleb f 5.0.
Definition in_dysk (f : Q) : bool := Qgtb f 5.0 && Qleb f 7.0.

(** The bin indices visited by [for (int k=1; k < FFT_SIZE/2; k++)]. *)
Definition bins : list nat := seq 1 (Z.to_nat (FFT_SIZE / 2) - 1).

(** One iteration of a band loop: the accumulators are the pair
    ([walk], [fog]) on the acceleration channel and ([tremor], [dysk]) on the
    angular-rate channel. *)
Definition band_step (inA inB : Q -> bool) (fft_mag : list Q)
    (acc : Q * Q) (k : nat) : Q * Q :=
  let f := bin_freq k in
  let a := if inA f then fst acc + nth k fft_mag 0 else fst acc in
  let b := if inB f then snd acc + nth k fft_mag 0 else snd acc in
  (a, b).

Definition band_loop (inA inB : Q -> bool) (fft_mag : list Q) : Q * Q :=
  fold_left (band_step inA inB fft_mag) bins (0, 0).

Definition accel_bands (fft_mag : list Q) : Q * Q :=
  band_loop in_walk in_fog fft_mag.
Definition gyro_bands (fft_mag : list Q) : Q * Q :=
  band_loop in_tremor in_dysk fft_mag.

(** A spectrum with unit magnitude in bin [k] and zero elsewhere. *)
Definition impulse (k : nat) : list Q :=
  map (fun j => if Nat.eqb j k then 1 else 0)
      (seq 0 (Z.to_nat (FFT_SIZE / 2))).

(** Whether the loop visits bin [k]. *)
Definition visited (k : nat) : bool :=
  (1 <=? k)%nat && (k <? Z.to_nat (FFT_SIZE / 2))%nat.

(** The share of a unit of magnitude in bin [k] that a loop with tests
    [inA], [inB] is expected to put in each accumulator. *)
Definition landing (inA inB : Q -> bool) (k : nat) : Q * Q :=
  (if visited k && inA (bin_freq k) then 1 else 0,
   if visited k && inB (bin_freq k) then 1 else 0).

(** Componentwise equality of accumulator pairs up to [==], decided. *)
Definition pair_eqb (p q : Q * Q) : bool :=
  Qeq_bool (fst p) (fst q) && Qeq_bool (snd p) (snd q).

End Extractor.

(** ** Spectral analysis front end (main.cpp, lines 144-151 and 166-173) *)

Module Analyzer.

(** The indices of [for (int i=0; i < RAW_SAMPLES; i++)]. *)
Definition samples : list nat := seq 0 (Z.to_nat RAW_SAMPLES).

(** The sum of [g i] over the indices [l], for reasoning about the loops. *)
Fixpoint sum_over (g : nat -> Q) (l : list nat) : Q :=
  match l with
  | [] => 0
  | i :: l' => g i + sum_over g l'
  end.

(** The arithmetic mean of a list, as the specification words it: the sum
    of its entries over their number.  It is the yardstick the loops below
    are compared with, not part of the program. *)
Definition arithmetic_mean (l : list Q) : Q :=
  fold_right Qplus 0 l / inject_Z (Z.of_nat (length l)).

(** [mean = 0; for (...) mean += buf[i]; mean /= RAW_SAMPLES;] *)
Definition window_mean (buf : list Q) : Q :=
  fold_left (fun mean i => mean + nth i buf 0) samples 0
  / inject_Z RAW_SAMPLES.

(** [fft_in[i] = buf[i] - mean] for the first [RAW_SAMPLES] entries. *)
Definition detrend (buf : list Q) : list Q :=
  let mean := window_mean buf in
  map (fun i => nth i buf 0 - mean) samples.

(** The working buffer handed to the transform: the detrended samples, then
    zeros up to [FFT_SIZE]. *)
Definition fill_fft_in (buf : list Q) : list Q :=
  detrend buf ++ repeat 0 (Z.to_nat (FFT_SIZE - RAW_SAMPLES)).

End Analyzer.

(** ** The sampling loop and the analysis pass of [main] *)

(** The process-wide state: the two ring buffers, their shared write index
    and the indicator outputs. *)
Record state : Type := mkState {
  accel_buf : list Q;
  gyro_buf : list Q;
  buf_idx : Z;
  indicators : Classifier.leds
}.

(** Globals are zero-initialised and the indicators start off. *)
Definition init_state : state :=
  mkState (repeat 0 (Z.to_nat RAW_SAMPLES)) (repeat 0 (Z.to_nat RAW_SAMPLES))
          0%Z (Classifier.mkLeds false false false).

(** [buf[i] = v] on an array of [RAW_SAMPLES] floats.  A store outside the
    array is undefined in C; it is left without effect here and is shown
    below never to be reached. *)
Definition store (buf : list Q) (i : Z) (v : Q) : list Q :=
  if (0 <=? i)%Z && (i <? Z.of_nat (length buf))%Z
  then <[Z.to_nat i := v]> buf else buf.

(** [buf_idx++; if (buf_idx >= RAW_SAMPLES) buf_idx = 0;] *)
Definition advance (i : Z) : Z :=
  let i' := (i + 1)%Z in
  if (i' >=? RAW_SAMPLES)%Z then 0%Z else i'.

(** The buffers have their declared size and the index is inside them. *)
Definition well_formed (st : state) : Prop :=
  length (accel_buf st) = Z.to_nat RAW_SAMPLES /\
  length (gyro_buf st) = Z.to_nat RAW_SAMPLES /\
  (0 <= buf_idx st < RAW_SAMPLES)%Z.

Section Pipeline.

Import Sensor.

(** [sqrtf] of the C library. *)
Variable sqrtf : Q -> Q.

(** [arm_rfft_fast_f32] followed by [arm_cmplx_mag_f32]: from the
    [FFT_SIZE] entries of [fft_in] to the [FFT_SIZE/2] entries of
    [fft_mag]. *)
Variable rfft_mag : list Q -> list Q.

(** Scale factors of the two sensors. *)
Definition ACCEL_SCALE : Q := 0.000061.
Definition GYRO_SCALE : Q := 0.00875.

(** Euclidean magnitude of a raw three-axis reading. *)
Definition magnitude (scale : Q) (x y z : Z) : Q :=
  let fx := inject_Z x * scale in
  let fy := inject_Z y * scale in
  let fz := inject_Z z * scale in
  sqrtf (fx * fx + fy * fy + fz * fz).

(** The body of [if (sample_flag) { ... }]. *)
Definition ingest (st : state) : M state :=
  x <- read_axis OUTX_L_XL ;;
  y <- read_axis OUTY_L_XL ;;
  z <- read_axis OUTZ_L_XL ;;
  let amag := magnitude ACCEL_SCALE x y z in
  gx <- read_axis OUTX_L_G ;;
  gy <- read_axis OUTY_L_G ;;
  gz <- read_axis OUTZ_L_G ;;
  let gmag := magnitude GYRO_SCALE gx gy gz in
  ret (mkState (store (accel_buf st) (buf_idx st) amag)
               (store (gyro_buf st) (buf_idx st) gmag)
               (advance (buf_idx st))
               (indicators st)).

(** [v] is the magnitude of some raw three-axis reading. *)
Definition is_magnitude (scale v : Q) : Prop :=
  exists x y z : Z,
    is_int16 x /\ is_int16 y /\ is_int16 z /\ v = magnitude scale x y z.

(** The [n] slots written last, counting back from the write index, hold
    magnitudes in both buffers. *)
Definition recent (st : state) (n : Z) : Prop :=
  forall m : Z, (0 <= m < n)%Z ->
    exists a g : Q,
      accel_buf st !! Z.to_nat ((buf_idx st - 1 - m) mod RAW_SAMPLES) = Some a /\
      gyro_buf st !! Z.to_nat ((buf_idx st - 1 - m) mod RAW_SAMPLES) = Some g /\
      is_magnitude ACCEL_SCALE a /\ is_magnitude GYRO_SCALE g.

(** The four band energies of the current buffers. *)
Definition band_energies (st : state) : Classifier.BandEnergySet :=
  let acc := Extractor.accel_bands (rfft_mag (Analyzer.fill_fft_in (accel_buf st))) in
  let gyr := Extractor.gyro_bands (rfft_mag (Analyzer.fill_fft_in (gyro_buf st))) in
  Classifier.mkBands (fst acc) (snd acc) (fst gyr) (snd gyr).

(** The body of [if (timer.elapsed_time() >= ...) { ... }], printing left
    out. *)
Definition analysis_pass (st : state) : state :=
  mkState (accel_buf st) (gyro_buf st) (buf_idx st)
          (Classifier.drive_leds (band_energies st)).

(** One turn of [while (true)]: [sample_flag] and [elapsed] say which of the
    two blocks run in this turn. *)
Definition loop_turn (st : state) (ev : bool * bool) : M state :=
  st1 <- (if fst ev then ingest st else ret st) ;;
  ret (if snd ev then analysis_pass st1 else st1).

(** Any number of turns. *)
Fixpoint run (evs : list (bool * bool)) (st : state) : M state :=
  match evs with
  | [] => ret st
  | ev :: evs' => st1 <- loop_turn st ev ;; run evs' st1
  end.

(** [int main()]: when [init_sensor] fails the program spins in
    [while (1);] and the loop is never entered. *)
Definition main (evs : list (bool * bool)) : M state :=
  ok <- init_sensor ;;
  if fst ok then run evs init_state else ret init_state.

End Pipeline.

(** ** The moving-average and peak-frequency demo (second program) *)

Module Demo.

Import Sensor.

Definition MA_WINDOW : Z := 10.
Definition DEMO_FFT_SIZE : Z := 256.
Definition DEMO_SAMPLE_RATE : Q := 104.0.

(** [const float FREQ_BIN_SIZE = SAMPLE_RATE / FFT_SIZE;] *)
Definition FREQ_BIN_SIZE : Q := DEMO_SAMPLE_RATE / inject_Z DEMO_FFT_SIZE.

(** [int16_t read_int16(uint8_t reg_low)] *)
Definition read_int16 (reg_low : Z) : M Z :=
  lo0 <- uninit_uint8 ;;
  hi0 <- uninit_uint8 ;;
  lo <- read_reg reg_low lo0 ;;
  hi <- read_reg ((reg_low + 1) mod 256) hi0 ;;
  ret (to_int16 (Z.lor (Z.shiftl (snd hi) 8) (snd lo))).

(** [bool init_sensor()] of the demo: here the flag of [read_reg] is
    tested before the identity byte. *)
Definition demo_init_sensor : M (bool * list reg_write) :=
  who0 <- uninit_uint8 ;;
  who <- read_reg WHO_AM_I who0 ;;
  if negb (fst who) || negb (snd who =? 0x6A)%Z then ret (false, [])
  else
    l1 <- write_reg CTRL3_C 0x44 [] ;;
    l2 <- write_reg CTRL1_XL 0x4C l1 ;;
    l3 <- write_reg CTRL2_G 0x00 l2 ;;
    ret (true, l3).

(** The globals of the demo. *)
Record dsp : Type := mkDsp {
  ma_buffer : list Q;
  ma_idx : Z;
  ma_sum : Q;
  fft_input : list Q;
  fft_idx : Z;
  current_dominant_freq : Q
}.

Definition init_dsp : dsp :=
  mkDsp (repeat 0 (Z.to_nat MA_WINDOW)) 0%Z 0
        (repeat 0 (Z.to_nat DEMO_FFT_SIZE)) 0%Z 0.

(** The bins visited by [for (int i = 1; i < FFT_SIZE / 2; i++)]. *)
Definition peak_bins : list nat := seq 1 (Z.to_nat (DEMO_FFT_SIZE / 2) - 1).

(** One iteration of the peak search on ([max_val], [max_bin]). *)
Definition peak_step (fft_mag : list Q) (acc : Q * nat) (i : nat) : Q * nat :=
  if Qgtb (nth i fft_mag 0) (fst acc) then (nth i fft_mag 0, i) else acc.

Definition find_peak (fft_mag : list Q) : Q * nat :=
  fold_left (peak_step fft_mag) peak_bins (0, 0%nat).

(** The value given to [current_dominant_freq]. *)
Definition dominant_freq (fft_mag : list Q) : Q :=
  let peak := find_peak fft_mag in
  if Qgtb (fst peak) 1.0
  then inject_Z (Z.of_nat (snd peak)) * FREQ_BIN_SIZE
  else 0.0.

(** The three values printed by one turn of the loop. *)
Record plot : Type := mkPlot {
  raw_acc : Q;
  filtered_acc : Q;
  freq_hz : Q
}.

Section DemoLoop.

(** [arm_rfft_fast_f32] followed by [arm_cmplx_mag_f32]. *)
Variable rfft_mag : list Q -> list Q.

(** Steps C and D of the loop body, for a raw reading [raw_val]. *)
Definition dsp_update (st : dsp) (raw_val : Z) : dsp * plot :=
  let acc_z := inject_Z raw_val * 0.244 / 1000.0 in
  let acc_z_centered := acc_z - 1.0 in
  let sum1 := ma_sum st - nth (Z.to_nat (ma_idx st)) (ma_buffer st) 0 in
  let buffer1 := store (ma_buffer st) (ma_idx st) acc_z in
  let sum2 := sum1 + nth (Z.to_nat (ma_idx st)) buffer1 0 in
  let idx1 := Z.rem (ma_idx st + 1) MA_WINDOW in
  let filtered_acc_z := sum2 / inject_Z MA_WINDOW in
  let input1 := store (fft_input st) (fft_idx st) acc_z_centered in
  let fidx1 := (fft_idx st + 1)%Z in
  let freq :=
    if (fidx1 >=? DEMO_FFT_SIZE)%Z then dominant_freq (rfft_mag input1)
    else current_dominant_freq st in
  let fidx2 := if (fidx1 >=? DEMO_FFT_SIZE)%Z then 0%Z else fidx1 in
  (mkDsp buffer1 idx1 sum2 input1 fidx2 freq,
   mkPlot acc_z filtered_acc_z freq).

(** One turn of [while (true)]. *)
Definition demo_turn (st : dsp) : M (dsp * plot) :=
  raw_val <- read_int16 OUTZ_L_XL ;;
  ret (dsp_update st raw_val).

End DemoLoop.

(** The globals have their declared sizes, both indices are inside their
    arrays and the running sum agrees with the buffer. *)
Definition dsp_ok (st : dsp) : Prop :=
  length (ma_buffer st) = Z.to_nat MA_WINDOW /\
  length (fft_input st) = Z.to_nat DEMO_FFT_SIZE /\
  (0 <= ma_idx st < MA_WINDOW)%Z /\
  (0 <= fft_idx st < DEMO_FFT_SIZE)%Z /\
  ma_sum st == fold_right Qplus 0 (ma_buffer st).

End Demo.

(** The number of turns in which a sample is taken. *)
Definition ticks (evs : list (bool * bool)) : nat :=
  length (List.filter (fun ev : bool * bool => fst ev) evs).

(** Stand-ins for the two numeric collaborators, used to evaluate the
    program on concrete inputs: a square root rounded down to thousandths
    and a spectrum that is flat zero. *)
Definition sqrt_thousandths (q : Q) : Q :=
  inject_Z (Z.sqrt (Qfloor (q * 1000000))) / 1000.
Definition silent_spectrum (_ : list Q) : list Q :=
  repeat 0 (Z.to_nat (FFT_SIZE / 2)).

(** A window holding the samples 0, 1, ..., RAW_SAMPLES - 1. *)
Definition ramp : list Q :=
  map (fun n => inject_Z (Z.of_nat n)) (seq 0 (Z.to_nat RAW_SAMPLES)).

(** A window holding the samples 0, 1, 4, 9, ..., the squares. *)
Definition squares : list Q :=
  map (fun n => inject_Z (Z.of_nat (n * n))) (seq 0 (Z.to_nat RAW_SAMPLES)).


(** A world whose bus refuses every access and whose uninitialised bytes
    alternate between 0 and 64. *)
Definition dead_world : Sensor.world :=
  Sensor.mkWorld Sensor.dead_bus 0
    (fun n => if Nat.even n then 0%Z else 64%Z) 0.

(** * Properties *)

(** ** Comparison lemmas *)

Lemma Qgtb_true (x y : Q) : Qgtb x y = true <-> y < x.
Proof.
  unfold Qgtb. rewrite negb_true_iff. split.
  - intros H. apply Qnot_le_lt. intros Hle.
    apply Qle_bool_iff in Hle. congruence.
  - intros H. destruct (Qle_bool x y) eqn:E; [|reflexivity].
    apply Qle_bool_iff in E. exfalso. apply (Qlt_not_le _ _ H E).
Qed.

Lemma Qgtb_false (x y : Q) : Qgtb x y = false <-> x <= y.
Proof.
  unfold Qgtb. rewrite negb_false_iff. apply Qle_bool_iff.
Qed.

Lemma Qltb_true (x y : Q) : Qltb x y = true <-> x < y.
Proof. apply (Qgtb_true y x). Qed.

Lemma Qltb_false (x y : Q) : Qltb x y = false <-> y <= x.
Proof. apply (Qgtb_false y x). Qed.

Lemma Qgeb_true (x y : Q) : Qgeb x y = true <-> y <= x.
Proof. apply Qle_bool_iff. Qed.

Lemma Qleb_true (x y : Q) : Qleb x y = true <-> x <= y.
Proof. apply Qle_bool_iff. Qed.

Lemma Qgtb_irrefl_eq (x y : Q) : x == y -> Qgtb x y = false.
Proof. intros H. apply Qgtb_false. rewrite H. apply Qle_refl. Qed.

Lemma Qltb_irrefl_eq (x y : Q) : x == y -> Qltb x y = false.
Proof. intros H. apply Qltb_false. rewrite H. apply Qle_refl. Qed.

(** Turns every boolean comparison among the hypotheses and the goal into
    the order relation it decides. *)
Ltac cmp_to_order :=
  repeat match goal with
  | H : Qgtb _ _ = true |- _ => apply Qgtb_true in H
  | H : Qgtb _ _ = false |- _ => apply Qgtb_false in H
  | H : Qltb _ _ = true |- _ => apply Qltb_true in H
  | H : Qltb _ _ = false |- _ => apply Qltb_false in H
  | H : Qgeb _ _ = true |- _ => apply Qgeb_true in H
  | H : Qleb _ _ = true |- _ => apply Qleb_true in H
  end.

(** ** The classifier *)

Section ClassifierFacts.

Import Classifier.

Lemma freezing_unfold (e : BandEnergySet) :
  freezing e =
  fgt (fog_ratio e) FOG_RATIO_THRESH && low_walk e && negb (dysk_present e).
Proof. unfold freezing. now destruct (_ && _ && _). Qed.

Lemma freezingFlag_is_freezing (e : BandEnergySet) :
  freezingFlag e = freezing e.
Proof.
  unfold freezingFlag, drive_leds.
  destruct (freezing e); simpl.
  - now destruct (tremor_present e).
  - now destruct (_ && _ && tremor_dominates e), (_ && _ && dysk_dominates e).
Qed.

Lemma dyskinesiaFlag_unfold (e : BandEnergySet) :
  dyskinesiaFlag e =
  negb (freezing e) && (low_walk e && dysk_present e && dysk_dominates e).
Proof.
  unfold dyskinesiaFlag, drive_leds.
  destruct (freezing e); simpl.
  - now destruct (tremor_present e).
  - now destruct (_ && _ && tremor_dominates e), (_ && _ && dysk_dominates e).
Qed.

Lemma tremorFlag_unfold (e : BandEnergySet) :
  tremorFlag e =
  if freezing e then tremor_present e
  else low_walk e && tremor_present e && tremor_dominates e.
Proof.
  unfold tremorFlag, drive_leds.
  destruct (freezing e); simpl.
  - now destruct (tremor_present e).
  - now destruct (_ && _ && tremor_dominates e), (_ && _ && dysk_dominates e).
Qed.

(** For nonnegative energies the two dominance tests exclude each other. *)
Lemma dominance_exclusive (e : BandEnergySet) :
  0 <= tremor e -> 0 <= dysk e ->
  tremor_dominates e && dysk_dominates e = false.
Proof.
  intros Ht Hd. unfold tremor_dominates, dysk_dominates, DOMINANCE_RATIO.
  destruct (Qgtb (tremor e) _) eqn:E1; [|reflexivity].
  destruct (Qgtb (dysk e) _) eqn:E2; [|reflexivity].
  cmp_to_order. exfalso. lra.
Qed.

(** C1. For every set of band energies (nonnegative or not) the classifier
    never reports freezing together with dyskinesia: when the freezing rule
    fires the dyskinesia output is false, and the two indicator outputs are
    never both on. *)
Theorem freezing_vetoes_dyskinesia (e : BandEnergySet) :
  (freezing e = true -> dyskinesiaFlag e = false) /\
  freezingFlag e && dyskinesiaFlag e = false.
Proof.
  rewrite freezingFlag_is_freezing, dyskinesiaFlag_unfold.
  split.
  - intros ->. reflexivity.
  - now destruct (freezing e).
Qed.

Lemma freezing_vetoes_dyskinesia_witness :
  freezing (mkBands 0 1 0 0) = true /\
  dyskinesiaFlag (mkBands 0 1 0 0) = false.
Proof.
  split; [reflexivity|].
  apply (proj1 (freezing_vetoes_dyskinesia (mkBands 0 1 0 0))). reflexivity.
Defined.

(** C2, as stated, fails: with walk = 0, fog = 1, tremor = 0, dysk = 6 the
    fog ratio is above its threshold, walk is low and dyskinesia is present,
    yet freezing is false and the dyskinesia output is on. *)
Lemma scenario_D_as_stated_fails :
  ~ (fgt (fog_ratio (mkBands 0 1 0 6)) FOG_RATIO_THRESH = true ->
     low_walk (mkBands 0 1 0 6) = true ->
     dysk_present (mkBands 0 1 0 6) = true ->
     freezing (mkBands 0 1 0 6) = true /\
     dyskinesiaFlag (mkBands 0 1 0 6) = false).
Proof.
  intros H. destruct (H eq_refl eq_refl eq_refl) as [Hf _].
  vm_compute in Hf. discriminate Hf.
Qed.

(** C2, amended. In scenario D (fog ratio above its threshold, low walk,
    dyskinesia present) the freezing rule does not fire, because it requires
    the absence of dyskinesia; the outputs are those of the non-freezing
    branch: dyskinesia is reported exactly when it dominates tremor, tremor
    exactly when it is present and dominates dyskinesia. *)
Theorem scenario_D_not_freezing (e : BandEnergySet) :
  fgt (fog_ratio e) FOG_RATIO_THRESH = true ->
  low_walk e = true ->
  dysk_present e = true ->
  freezing e = false /\
  freezingFlag e = false /\
  dyskinesiaFlag e = dysk_dominates e /\
  tremorFlag e = tremor_present e && tremor_dominates e.
Proof.
  intros Hr Hw Hd.
  assert (Hf : freezing e = false).
  { rewrite freezing_unfold, Hr, Hw, Hd. reflexivity. }
  rewrite freezingFlag_is_freezing, dyskinesiaFlag_unfold, tremorFlag_unfold.
  rewrite Hf, Hw, Hd. auto.
Qed.

Lemma scenario_D_not_freezing_witness :
  freezing (mkBands 0 1 0 6) = false /\
  freezingFlag (mkBands 0 1 0 6) = false /\
  dyskinesiaFlag (mkBands 0 1 0 6) = dysk_dominates (mkBands 0 1 0 6) /\
  tremorFlag (mkBands 0 1 0 6) =
    tremor_present (mkBands 0 1 0 6) && tremor_dominates (mkBands 0 1 0 6).
Proof.
  apply (scenario_D_not_freezing (mkBands 0 1 0 6)); reflexivity.
Defined.

(** C4. The three threshold tests are strict: an energy equal to its
    threshold is not present, and walk equal to its threshold is not low. *)
Theorem thresholds_are_strict (e : BandEnergySet) :
  (tremor e == TREMOR_THRESH -> tremor_present e = false) /\
  (dysk e == DYSK_THRESH -> dysk_present e = false) /\
  (walk e == WALK_THRESH -> low_walk e = false).
Proof.
  unfold tremor_present, dysk_present, low_walk.
  split; [|split]; intros H.
  - now apply Qgtb_irrefl_eq.
  - now apply Qgtb_irrefl_eq.
  - now apply Qltb_irrefl_eq.
Qed.

Lemma thresholds_are_strict_witness :
  tremor_present (mkBands 5 0 5 (10 # 2)) = false /\
  dysk_present (mkBands 5 0 5 (10 # 2)) = false /\
  low_walk (mkBands 5 0 5 (10 # 2)) = false.
Proof.
  destruct (thresholds_are_strict (mkBands 5 0 5 (10 # 2))) as (Ht & Hd & Hw).
  split; [apply Ht; reflexivity|].
  split; [apply Hd; reflexivity | apply Hw; reflexivity].
Defined.

(** With equal energies neither dominance test holds. *)
Lemma equal_energy_no_dominance (e : BandEnergySet) :
  0 <= tremor e -> tremor e == dysk e ->
  tremor_dominates e = false /\ dysk_dominates e = false.
Proof.
  intros Ht Heq. unfold tremor_dominates, dysk_dominates, DOMINANCE_RATIO.
  split; apply Qgtb_false; lra.
Qed.

(** C5. When tremor and dyskinesia energies are equal (and nonnegative),
    neither dominance test holds and both the tremor and the dyskinesia
    output are false, in the freezing branch as well as in the other one. *)
Theorem equal_energy_no_flags (e : BandEnergySet) :
  nonneg e ->
  tremor e == dysk e ->
  tremor_dominates e = false /\
  dysk_dominates e = false /\
  tremorFlag e = false /\
  dyskinesiaFlag e = false.
Proof.
  intros (_ & _ & Ht & _) Heq.
  destruct (equal_energy_no_dominance e Ht Heq) as [Htd Hdd].
  rewrite tremorFlag_unfold, dyskinesiaFlag_unfold, Htd, Hdd.
  rewrite !andb_false_r.
  repeat (split; [reflexivity|]).
  split; [|reflexivity].
  destruct (freezing e) eqn:Hf; [|reflexivity].
  rewrite freezing_unfold in Hf.
  apply andb_true_iff in Hf as [_ Hnd].
  apply negb_true_iff in Hnd.
  unfold dysk_present in Hnd. unfold tremor_present.
  cmp_to_order. apply Qgtb_false.
  unfold TREMOR_THRESH. unfold DYSK_THRESH in Hnd. lra.
Qed.

Lemma equal_energy_no_flags_witness :
  (freezing (mkBands 0 1 4 4) = true /\
   tremorFlag (mkBands 0 1 4 4) = false /\
   dyskinesiaFlag (mkBands 0 1 4 4) = false) /\
  (freezing (mkBands 1 0 7 (14 # 2)) = false /\
   tremorFlag (mkBands 1 0 7 (14 # 2)) = false /\
   dyskinesiaFlag (mkBands 1 0 7 (14 # 2)) = false).
Proof.
  assert (N1 : nonneg (mkBands 0 1 4 4)).
  { unfold nonneg; simpl; repeat split; discriminate. }
  assert (N2 : nonneg (mkBands 1 0 7 (14 # 2))).
  { unfold nonneg; simpl; repeat split; discriminate. }
  destruct (equal_energy_no_flags (mkBands 0 1 4 4) N1 (eq_refl : 4 == 4))
    as (_ & _ & T1 & D1).
  destruct (equal_energy_no_flags (mkBands 1 0 7 (14 # 2)) N2
              (eq_refl : 7 == 14 # 2)) as (_ & _ & T2 & D2).
  split; (split; [reflexivity|]); split; assumption.
Defined.

(** C10. For nonnegative energies the tremor and the dyskinesia output are
    never both true: outside the freezing branch the two strict dominance
    tests cannot hold together, and inside it the dyskinesia output is
    false. *)
Theorem tremor_dyskinesia_exclusive (e : BandEnergySet) :
  nonneg e ->
  tremorFlag e && dyskinesiaFlag e = false /\
  tremor_dominates e && dysk_dominates e = false /\
  (freezing e = true -> dyskinesiaFlag e = false).
Proof.
  intros (_ & _ & Ht & Hd).
  pose proof (dominance_exclusive e Ht Hd) as Hx.
  rewrite tremorFlag_unfold, dyskinesiaFlag_unfold.
  split; [|split].
  - destruct (freezing e); simpl.
    + apply andb_false_r.
    + destruct (tremor_dominates e), (dysk_dominates e);
        try discriminate Hx; rewrite ?andb_false_r; reflexivity.
  - exact Hx.
  - intros ->. reflexivity.
Qed.

Lemma tremor_dyskinesia_exclusive_witness :
  tremorFlag (mkBands 1 0 9 6) = true /\
  dyskinesiaFlag (mkBands 1 0 9 6) = false /\
  tremorFlag (mkBands 1 0 9 6) && dyskinesiaFlag (mkBands 1 0 9 6) = false.
Proof.
  assert (N : nonneg (mkBands 1 0 9 6)).
  { unfold nonneg; simpl; repeat split; discriminate. }
  destruct (tremor_dyskinesia_exclusive (mkBands 1 0 9 6) N) as (H & _ & _).
  split; [reflexivity|]. split; [reflexivity|]. exact H.
Defined.

Lemma epsilon_positive : 0 < EPSILON.
Proof. reflexivity. Qed.

Lemma flt_overflow_positive : 3 < FLT_OVERFLOW.
Proof. reflexivity. Qed.

(** The division on a positive divisor: the exact quotient when it is in
    range, an infinity of its sign otherwise. *)
Lemma fdiv_positive_divisor (x y : Q) :
  0 < y ->
  (FLT_OVERFLOW <= x / y /\ fdiv x y = PInf) \/
  (x / y <= - FLT_OVERFLOW /\ fdiv x y = NInf) \/
  (- FLT_OVERFLOW < x / y /\ x / y < FLT_OVERFLOW /\ fdiv x y = Fin (x / y)).
Proof.
  intros Hy. unfold fdiv.
  destruct (Qeq_bool y 0) eqn:E.
  { apply Qeq_bool_iff in E. lra. }
  destruct (Qle_bool FLT_OVERFLOW (x / y)) eqn:E1.
  { left. apply Qle_bool_iff in E1. auto. }
  destruct (Qle_bool (x / y) (- FLT_OVERFLOW)) eqn:E2.
  { right. left. apply Qle_bool_iff in E2. auto. }
  right. right.
  split; [|split; [|reflexivity]]; apply Qnot_le_lt; intros H;
    apply Qle_bool_iff in H; congruence.
Qed.




End ClassifierFacts.

(** ** Band energy extraction *)

Section ExtractorFacts.

Import Extractor.

Lemma fold_left_agree {A : Type} (f g : A -> nat -> A) (l : list nat) (a : A) :
  (forall (x : A) (k : nat), In k l -> f x k = g x k) ->
  fold_left f l a = fold_left g l a.
Proof.
  revert a. induction l as [|k l IH]; intros a H; simpl; [reflexivity|].
  rewrite (H a k (or_introl eq_refl)).
  apply IH. intros x j Hj. apply H. now right.
Qed.

Lemma bins_spec (k : nat) :
  In k bins <-> (1 <= k < Z.to_nat (FFT_SIZE / 2))%nat.
Proof.
  unfold bins. rewrite in_seq.
  change (Z.to_nat (FFT_SIZE / 2)) with 128%nat. lia.
Qed.

Lemma band_loop_agree (inA inB : Q -> bool) (mag mag' : list Q) :
  (forall k, (1 <= k < Z.to_nat (FFT_SIZE / 2))%nat ->
             nth k mag 0 = nth k mag' 0) ->
  band_loop inA inB mag = band_loop inA inB mag'.
Proof.
  intros H. unfold band_loop. apply fold_left_agree.
  intros x k Hk. apply bins_spec in Hk.
  unfold band_step. rewrite (H k Hk). reflexivity.
Qed.

Lemma walk_fog_disjoint (f : Q) : in_walk f && in_fog f = false.
Proof.
  unfold in_walk, in_fog.
  destruct (Qgeb f 0.5) eqn:E1, (Qleb f 3.0) eqn:E2, (Qgtb f 3.0) eqn:E3;
    try reflexivity.
  cmp_to_order. exfalso. lra.
Qed.

Lemma tremor_dysk_disjoint (f : Q) : in_tremor f && in_dysk f = false.
Proof.
  unfold in_tremor, in_dysk.
  destruct (Qgeb f 3.0) eqn:E1, (Qleb f 5.0) eqn:E2, (Qgtb f 5.0) eqn:E3;
    try reflexivity.
  cmp_to_order. exfalso. lra.
Qed.

Lemma band_tests_spec (f : Q) :
  (in_walk f = true <-> 0.5 <= f <= 3.0) /\
  (in_fog f = true <-> 3.0 < f <= 8.0) /\
  (in_tremor f = true <-> 3.0 <= f <= 5.0) /\
  (in_dysk f = true <-> 5.0 < f <= 7.0).
Proof.
  unfold in_walk, in_fog, in_tremor, in_dysk.
  rewrite !andb_true_iff, !Qgeb_true, !Qleb_true, !Qgtb_true.
  tauto.
Qed.

(** An iteration whose two tests exclude each other adds the bin to at most
    one accumulator. *)
Lemma band_step_one_band (inA inB : Q -> bool) (mag : list Q) (a b : Q) (k : nat) :
  inA (bin_freq k) && inB (bin_freq k) = false ->
  band_step inA inB mag (a, b) k = (a + nth k mag 0, b) \/
  band_step inA inB mag (a, b) k = (a, b + nth k mag 0) \/
  band_step inA inB mag (a, b) k = (a, b).
Proof.
  intros H. unfold band_step. simpl.
  destruct (inA (bin_freq k)), (inB (bin_freq k)); try discriminate H; auto.
Qed.

Lemma impulse_beyond (k : nat) :
  (Z.to_nat (FFT_SIZE / 2) <= k)%nat -> impulse k = impulse (Z.to_nat (FFT_SIZE / 2)).
Proof.
  intros Hk. unfold impulse. apply map_ext_in.
  intros j Hj. apply in_seq in Hj.
  destruct (Nat.eqb_spec j k), (Nat.eqb_spec j (Z.to_nat (FFT_SIZE / 2)));
    try reflexivity; lia.
Qed.

Lemma visited_beyond (k : nat) :
  (Z.to_nat (FFT_SIZE / 2) <= k)%nat -> visited k = false.
Proof.
  intros Hk. unfold visited.
  destruct (Nat.ltb_spec k (Z.to_nat (FFT_SIZE / 2))); [lia|].
  apply andb_false_r.
Qed.

Lemma impulse_lands (inA inB : Q -> bool) :
  forallb (fun k => pair_eqb (band_loop inA inB (impulse k)) (landing inA inB k))
          (seq 0 (S (Z.to_nat (FFT_SIZE / 2)))) = true ->
  forall k, pair_eqb (band_loop inA inB (impulse k)) (landing inA inB k) = true.
Proof.
  intros Hall k. rewrite forallb_forall in Hall.
  destruct (Nat.lt_ge_cases k (Z.to_nat (FFT_SIZE / 2))) as [Hlt|Hge].
  - apply Hall. apply in_seq. lia.
  - rewrite (impulse_beyond k Hge).
    unfold landing. rewrite (visited_beyond k Hge). simpl.
    specialize (Hall (Z.to_nat (FFT_SIZE / 2))).
    unfold landing in Hall. rewrite visited_beyond in Hall by lia.
    apply Hall. apply in_seq. lia.
Qed.

(** C3. The band loops visit exactly the bins 1 .. FFT_SIZE/2 - 1, so the
    energies do not depend on bin 0 nor on anything outside that range; the
    two tests of a channel exclude each other for every frequency, so an
    iteration adds its bin to at most one accumulator; a frequency of 3 Hz
    passes the walk test and not the fog test, one of 5 Hz passes the tremor
    test and not the dyskinesia test, the four tests being walk [0.5, 3.0],
    fog (3.0, 8.0], tremor [3.0, 5.0] and dyskinesia (5.0, 7.0]; and a unit
    of magnitude placed in a single bin lands in the band of its frequency,
    or in none. *)
Theorem band_partition :
  (forall k, In k bins <-> (1 <= k < Z.to_nat (FFT_SIZE / 2))%nat) /\
  (forall mag mag' : list Q,
     (forall k, (1 <= k < Z.to_nat (FFT_SIZE / 2))%nat ->
                nth k mag 0 = nth k mag' 0) ->
     accel_bands mag = accel_bands mag' /\ gyro_bands mag = gyro_bands mag') /\
  (forall f, in_walk f && in_fog f = false) /\
  (forall f, in_tremor f && in_dysk f = false) /\
  (forall (mag : list Q) (a b : Q) (k : nat),
     (band_step in_walk in_fog mag (a, b) k = (a + nth k mag 0, b) \/
      band_step in_walk in_fog mag (a, b) k = (a, b + nth k mag 0) \/
      band_step in_walk in_fog mag (a, b) k = (a, b)) /\
     (band_step in_tremor in_dysk mag (a, b) k = (a + nth k mag 0, b) \/
      band_step in_tremor in_dysk mag (a, b) k = (a, b + nth k mag 0) \/
      band_step in_tremor in_dysk mag (a, b) k = (a, b))) /\
  (forall f, f == 3.0 -> in_walk f = true /\ in_fog f = false) /\
  (forall f, f == 5.0 -> in_tremor f = true /\ in_dysk f = false) /\
  (forall f,
     (in_walk f = true <-> 0.5 <= f <= 3.0) /\
     (in_fog f = true <-> 3.0 < f <= 8.0) /\
     (in_tremor f = true <-> 3.0 <= f <= 5.0) /\
     (in_dysk f = true <-> 5.0 < f <= 7.0)) /\
  (forall k,
     pair_eqb (accel_bands (impulse k)) (landing in_walk in_fog k) = true /\
     pair_eqb (gyro_bands (impulse k)) (landing in_tremor in_dysk k) = true).
Proof.
  split; [exact bins_spec|].
  split.
  { intros mag mag' H. split; apply band_loop_agree; exact H. }
  split; [exact walk_fog_disjoint|].
  split; [exact tremor_dysk_disjoint|].
  split.
  { intros mag a b k. split; apply band_step_one_band.
    - apply walk_fog_disjoint.
    - apply tremor_dysk_disjoint. }
  split.
  { intros f Hf. unfold in_walk, in_fog. split.
    - apply andb_true_iff. split; [apply Qgeb_true | apply Qleb_true]; lra.
    - replace (Qgtb f 3.0) with false; [reflexivity|].
      symmetry. apply Qgtb_false. lra. }
  split.
  { intros f Hf. unfold in_tremor, in_dysk. split.
    - apply andb_true_iff. split; [apply Qgeb_true | apply Qleb_true]; lra.
    - replace (Qgtb f 5.0) with false; [reflexivity|].
      symmetry. apply Qgtb_false. lra. }
  split; [exact band_tests_spec|].
  intros k. split.
  - apply (impulse_lands in_walk in_fog). vm_compute. reflexivity.
  - apply (impulse_lands in_tremor in_dysk). vm_compute. reflexivity.
Qed.

Lemma band_partition_witness :
  (in_walk 3.0 = true /\ in_fog 3.0 = false) /\
  (in_tremor 5.0 = true /\ in_dysk 5.0 = false) /\
  accel_bands (impulse 14) = accel_bands (1 :: tl (impulse 14) ++ [1]).
Proof.
  destruct band_partition as (_ & Hdc & _ & _ & _ & H3 & H5 & _ & _).
  split; [apply H3; reflexivity|].
  split; [apply H5; reflexivity|].
  apply (Hdc (impulse 14) (1 :: tl (impulse 14) ++ [1])).
  intros k Hk.
  change (Z.to_nat (FFT_SIZE / 2)) with 128%nat in Hk.
  destruct k as [|k]; [lia|].
  do 127 (destruct k as [|k]; [reflexivity|]). lia.
Defined.

End ExtractorFacts.

(** ** DC removal *)

Section AnalyzerFacts.

Import Analyzer.

Lemma fold_left_sum_over (g : nat -> Q) (l : list nat) (a : Q) :
  fold_left (fun s i => s + g i) l a == a + sum_over g l.
Proof.
  revert a. induction l as [|i l IH]; intros a; simpl.
  - ring.
  - rewrite IH. ring.
Qed.

Lemma sum_over_agree (g h : nat -> Q) (l : list nat) :
  (forall i, In i l -> g i == h i) -> sum_over g l == sum_over h l.
Proof.
  induction l as [|i l IH]; intros H; simpl; [reflexivity|].
  rewrite (H i (or_introl eq_refl)), IH; [reflexivity|].
  intros j Hj. apply H. now right.
Qed.

Lemma sum_over_shift (g : nat -> Q) (m : Q) (l : list nat) :
  sum_over (fun i => g i - m) l ==
  sum_over g l - inject_Z (Z.of_nat (length l)) * m.
Proof.
  induction l as [|i l IH].
  - simpl. ring.
  - cbn [sum_over length]. rewrite IH, Nat2Z.inj_succ.
    unfold Z.succ. rewrite inject_Z_plus. ring.
Qed.

Lemma window_mean_sum (buf : list Q) :
  window_mean buf ==
  sum_over (fun i => nth i buf 0) samples / inject_Z RAW_SAMPLES.
Proof.
  unfold window_mean.
  rewrite (fold_left_sum_over (fun i => nth i buf 0)).
  rewrite Qplus_0_l. reflexivity.
Qed.

Lemma samples_length : length samples = Z.to_nat RAW_SAMPLES.
Proof. unfold samples. apply length_seq. Qed.

Lemma detrend_nth (buf : list Q) (i : nat) :
  (i < Z.to_nat RAW_SAMPLES)%nat ->
  nth i (detrend buf) 0 = nth i buf 0 - window_mean buf.
Proof.
  intros Hi. unfold detrend.
  set (f := fun j => nth j buf 0 - window_mean buf).
  rewrite (nth_indep _ 0 (f 0%nat)).
  - rewrite map_nth. unfold samples. rewrite seq_nth by exact Hi. reflexivity.
  - rewrite length_map, samples_length. exact Hi.
Qed.

Lemma sum_over_succ (g : nat -> Q) (s n : nat) :
  sum_over g (seq (S s) n) = sum_over (fun i => g (S i)) (seq s n).
Proof.
  revert s. induction n as [|n IH]; intros s; [reflexivity|].
  cbn [seq sum_over]. rewrite IH. reflexivity.
Qed.

(** The sum of a list is the sum of its entries taken by index. *)
Lemma list_sum_indexed (l : list Q) :
  fold_right Qplus 0 l = sum_over (fun i => nth i l 0) (seq 0 (length l)).
Proof.
  induction l as [|x l IH]; [reflexivity|].
  cbn [length seq sum_over fold_right nth].
  rewrite sum_over_succ, IH. reflexivity.
Qed.

(** On an array of RAW_SAMPLES entries the loop computes the arithmetic
    mean. *)
Lemma window_mean_is_arithmetic (l : list Q) :
  length l = Z.to_nat RAW_SAMPLES -> window_mean l == arithmetic_mean l.
Proof.
  intros Hlen. rewrite window_mean_sum. unfold arithmetic_mean.
  rewrite list_sum_indexed, Hlen.
  change (inject_Z (Z.of_nat (Z.to_nat RAW_SAMPLES))) with (inject_Z RAW_SAMPLES).
  reflexivity.
Qed.

(** C7. The mean subtracted from the samples is the arithmetic mean of the
    RAW_SAMPLES samples (their sum over their number), and subtracting it
    from each of them leaves an array of RAW_SAMPLES values whose
    arithmetic mean is zero; so is its mean as the program itself would
    compute it. *)
Theorem detrend_mean_zero (buf : list Q) :
  length (detrend buf) = Z.to_nat RAW_SAMPLES /\
  (forall i, (i < Z.to_nat RAW_SAMPLES)%nat ->
             nth i (detrend buf) 0 = nth i buf 0 - window_mean buf) /\
  window_mean (detrend buf) == 0 /\
  (length buf = Z.to_nat RAW_SAMPLES -> window_mean buf == arithmetic_mean buf) /\
  arithmetic_mean (detrend buf) == 0.
Proof.
  assert (Hlen : length (detrend buf) = Z.to_nat RAW_SAMPLES).
  { unfold detrend. rewrite length_map. apply samples_length. }
  assert (Hzero : window_mean (detrend buf) == 0).
  { rewrite window_mean_sum.
    rewrite (sum_over_agree _ (fun i => nth i buf 0 - window_mean buf)).
    - rewrite sum_over_shift, samples_length, window_mean_sum.
      change (inject_Z (Z.of_nat (Z.to_nat RAW_SAMPLES))) with (inject_Z RAW_SAMPLES).
      assert (Hn : ~ inject_Z RAW_SAMPLES == 0) by discriminate.
      field. exact Hn.
    - intros i Hi. unfold samples in Hi. apply in_seq in Hi.
      rewrite detrend_nth by lia. reflexivity. }
  split; [exact Hlen|].
  split; [exact (detrend_nth buf)|].
  split; [exact Hzero|].
  split; [apply window_mean_is_arithmetic|].
  rewrite <- (window_mean_is_arithmetic (detrend buf) Hlen). exact Hzero.
Qed.

Lemma detrend_mean_zero_witness :
  nth 3 (detrend ramp) 0 = nth 3 ramp 0 - window_mean ramp /\
  window_mean ramp == 77.5 /\
  window_mean (detrend ramp) == 0 /\
  (window_mean squares == arithmetic_mean squares /\
   arithmetic_mean squares == 48205 # 6 /\
   nth 3 (detrend squares) 0 == 9 - (48205 # 6) /\
   arithmetic_mean (detrend squares) == 0).
Proof.
  destruct (detrend_mean_zero ramp) as (_ & Hn & Hz & _).
  destruct (detrend_mean_zero squares) as (_ & Hn2 & _ & Hm2 & Hz2).
  split; [apply (Hn 3%nat); apply Nat.ltb_lt; reflexivity|].
  split; [reflexivity|]. split; [exact Hz|].
  split; [apply Hm2; reflexivity|].
  split; [vm_compute; reflexivity|].
  split; [|exact Hz2].
  rewrite (Hn2 3%nat) by (apply Nat.ltb_lt; reflexivity).
  vm_compute. reflexivity.
Defined.

(** The working buffer has FFT_SIZE entries. *)
Lemma fill_fft_in_length (buf : list Q) :
  length (fill_fft_in buf) = Z.to_nat FFT_SIZE.
Proof.
  unfold fill_fft_in, detrend.
  rewrite length_app, length_map, samples_length, repeat_length.
  reflexivity.
Qed.

End AnalyzerFacts.

(** ** Register reads *)

Section SensorFacts.

Import Sensor.
Local Open Scope Z_scope.

Lemma bind_run {A B : Type} (m : M A) (k : A -> M B) (w : world) :
  bind m k w = k (fst (m w)) (snd (m w)).
Proof. unfold bind. now destruct (m w). Qed.

Lemma to_int16_range (u : Z) : is_int16 (to_int16 u).
Proof.
  unfold is_int16, to_int16.
  pose proof (Z.mod_pos_bound u 65536 eq_refl) as Hm.
  destruct (Z.ltb_spec (u mod 65536) 32768); lia.
Qed.

(** What a call of [read_reg] does to the world: one bus access, nothing
    else. *)
Lemma read_reg_world (reg val : Z) (w : world) :
  snd (read_reg reg val w) =
  mkWorld (bus w) (S (bus_pos w)) (junk w) (junk_pos w).
Proof.
  unfold read_reg. rewrite bind_run. unfold i2c_access. simpl.
  destruct (negb (write_status _ =? 0)); [reflexivity|].
  destruct (negb (read_status _ =? 0)); reflexivity.
Qed.

(** A refused access leaves [val] as it was and reports [false]. *)
Lemma read_reg_failure (reg val : Z) (w : world) :
  txn_fails (bus w (bus_pos w) reg) = true ->
  fst (read_reg reg val w) = (false, val).
Proof.
  unfold txn_fails, read_reg. rewrite bind_run. unfold i2c_access. simpl.
  intros H.
  destruct (negb (write_status _ =? 0)); [reflexivity|].
  destruct (negb (read_status _ =? 0)); [reflexivity|discriminate H].
Qed.

Lemma read_reg_success (reg val : Z) (w : world) :
  txn_fails (bus w (bus_pos w) reg) = false ->
  fst (read_reg reg val w) = (true, read_byte (bus w (bus_pos w) reg) mod 256).
Proof.
  unfold txn_fails, read_reg. rewrite bind_run. unfold i2c_access. simpl.
  intros H. apply orb_false_iff in H as [-> ->]. reflexivity.
Qed.

Lemma read_axis_value (reg : Z) (w : world) :
  exists lo hi : bool * Z,
    fst (read_axis reg w) = to_int16 (Z.lor (Z.shiftl (snd hi) 8) (snd lo)).
Proof.
  unfold read_axis. rewrite !bind_run. unfold ret. simpl. eauto.
Qed.

Lemma read_axis_world (reg : Z) (w : world) :
  snd (read_axis reg w) =
  mkWorld (bus w) (2 + bus_pos w) (junk w) (2 + junk_pos w).
Proof.
  unfold read_axis. rewrite !bind_run. unfold ret. cbn [snd].
  rewrite !read_reg_world. reflexivity.
Qed.

Lemma read_axis_int16 (reg : Z) (w : world) : is_int16 (fst (read_axis reg w)).
Proof.
  destruct (read_axis_value reg w) as (lo & hi & ->). apply to_int16_range.
Qed.


End SensorFacts.

(** ** The sampling loop *)

Section SamplerFacts.

Import Sensor.
Local Open Scope Z_scope.

Variable sqrtf : Q -> Q.
Variable rfft_mag : list Q -> list Q.

Lemma raw_samples_value : RAW_SAMPLES = 156.
Proof. reflexivity. Qed.

Lemma advance_spec (i : Z) :
  0 <= i < RAW_SAMPLES ->
  0 <= advance i < RAW_SAMPLES /\ advance i = (i + 1) mod RAW_SAMPLES.
Proof.
  rewrite raw_samples_value. intros Hi. unfold advance.
  rewrite raw_samples_value.
  destruct (Z.geb_spec (i + 1) 156) as [Hge|Hlt].
  - assert (i = 155) as -> by lia. split; [lia | reflexivity].
  - rewrite Z.mod_small by lia. lia.
Qed.

Lemma store_length (buf : list Q) (i : Z) (v : Q) :
  length (store buf i v) = length buf.
Proof.
  unfold store. destruct (_ && _); [apply length_insert | reflexivity].
Qed.

Lemma store_lookup (buf : list Q) (i : Z) (v : Q) :
  0 <= i < Z.of_nat (length buf) ->
  store buf i v !! Z.to_nat i = Some v.
Proof.
  intros Hi. unfold store.
  destruct (Z.leb_spec 0 i); [|lia].
  destruct (Z.ltb_spec i (Z.of_nat (length buf))); [|lia].
  simpl. apply list_lookup_insert_eq. lia.
Qed.

Lemma store_other (buf : list Q) (i : Z) (v : Q) (j : nat) :
  j <> Z.to_nat i -> store buf i v !! j = buf !! j.
Proof.
  intros Hj. unfold store.
  destruct (_ && _); [|reflexivity].
  apply list_lookup_insert_ne. congruence.
Qed.

(** Runs the next [read_axis] of the goal, recording the world it leaves
    and the range of the value it returns. *)
Ltac run_read_axis :=
  match goal with
  | |- context [read_axis ?r ?w] =>
      let E := fresh "E" in
      let I := fresh "I" in
      pose proof (read_axis_world r w) as E;
      pose proof (read_axis_int16 r w) as I;
      destruct (read_axis r w) as [? ?];
      cbn [fst snd bus bus_pos junk junk_pos] in E, I;
      subst
  end.

(** One sample, whatever the six axis reads returned: both stores and the
    index update happen, after exactly twelve register accesses. *)
Lemma ingest_run (st : state) (w : world) :
  exists x y z gx gy gz : Z,
    (is_int16 x /\ is_int16 y /\ is_int16 z) /\
    (is_int16 gx /\ is_int16 gy /\ is_int16 gz) /\
    ingest sqrtf st w =
    (mkState (store (accel_buf st) (buf_idx st) (magnitude sqrtf ACCEL_SCALE x y z))
             (store (gyro_buf st) (buf_idx st) (magnitude sqrtf GYRO_SCALE gx gy gz))
             (advance (buf_idx st))
             (indicators st),
     mkWorld (bus w) (12 + bus_pos w) (junk w) (12 + junk_pos w)).
Proof.
  unfold ingest, bind.
  do 6 run_read_axis.
  unfold ret. do 6 eexists.
  split; [|split]; cycle 2.
  - reflexivity.
  - split; [|split]; assumption.
  - split; [|split]; assumption.
Qed.

Lemma ingest_state (st : state) (w : world) :
  exists x y z gx gy gz : Z,
    (is_int16 x /\ is_int16 y /\ is_int16 z) /\
    (is_int16 gx /\ is_int16 gy /\ is_int16 gz) /\
    fst (ingest sqrtf st w) =
    mkState (store (accel_buf st) (buf_idx st) (magnitude sqrtf ACCEL_SCALE x y z))
            (store (gyro_buf st) (buf_idx st) (magnitude sqrtf GYRO_SCALE gx gy gz))
            (advance (buf_idx st))
            (indicators st).
Proof.
  destruct (ingest_run st w) as (x & y & z & gx & gy & gz & H1 & H2 & ->).
  exists x, y, z, gx, gy, gz. auto.
Qed.

Lemma ingest_world (st : state) (w : world) :
  snd (ingest sqrtf st w) =
  mkWorld (bus w) (12 + bus_pos w) (junk w) (12 + junk_pos w).
Proof.
  destruct (ingest_run st w) as (x & y & z & gx & gy & gz & _ & _ & ->).
  reflexivity.
Qed.

Lemma ingest_buf_idx (st : state) (w : world) :
  buf_idx (fst (ingest sqrtf st w)) = advance (buf_idx st).
Proof.
  destruct (ingest_state st w) as (x & y & z & gx & gy & gz & _ & _ & ->).
  reflexivity.
Qed.

Lemma init_well_formed : well_formed init_state.
Proof.
  unfold well_formed, init_state. cbn [accel_buf gyro_buf buf_idx].
  rewrite repeat_length, raw_samples_value. lia.
Qed.

Lemma ingest_well_formed (st : state) (w : world) :
  well_formed st -> well_formed (fst (ingest sqrtf st w)).
Proof.
  intros (Ha & Hg & Hi).
  destruct (ingest_state st w) as (x & y & z & gx & gy & gz & _ & _ & ->).
  unfold well_formed. cbn [accel_buf gyro_buf buf_idx].
  rewrite !store_length.
  repeat split; try assumption; apply advance_spec; exact Hi.
Qed.

Lemma analysis_well_formed (st : state) :
  well_formed st -> well_formed (analysis_pass rfft_mag st).
Proof. intros H. exact H. Qed.

Lemma loop_turn_well_formed (st : state) (ev : bool * bool) (w : world) :
  well_formed st -> well_formed (fst (loop_turn sqrtf rfft_mag st ev w)).
Proof.
  intros H. unfold loop_turn. rewrite bind_run. unfold ret. cbn [fst].
  assert (H1 : well_formed (fst ((if fst ev then ingest sqrtf st else ret st) w))).
  { destruct (fst ev); [apply ingest_well_formed; exact H | exact H]. }
  destruct (snd ev); [apply analysis_well_formed|]; exact H1.
Qed.

Lemma run_well_formed (evs : list (bool * bool)) (st : state) (w : world) :
  well_formed st -> well_formed (fst (run sqrtf rfft_mag evs st w)).
Proof.
  revert st w. induction evs as [|ev evs IH]; intros st w H.
  - exact H.
  - cbn [run]. rewrite bind_run. apply IH. apply loop_turn_well_formed. exact H.
Qed.

End SamplerFacts.

Section RingBuffer.

Import Sensor.
Local Open Scope Z_scope.

(** C8. The write index lies in [0, RAW_SAMPLES) at start-up and in every
    state the main loop can reach, an ingest step takes a well-formed state
    to a well-formed state, and its increment-then-reset of the index is
    [(buf_idx + 1) mod RAW_SAMPLES] for every index in range. *)
Theorem ring_cursor_invariant :
  well_formed init_state /\
  (forall i, 0 <= i < RAW_SAMPLES ->
             0 <= advance i < RAW_SAMPLES /\
             advance i = (i + 1) mod RAW_SAMPLES) /\
  (forall sqrtf st w, buf_idx (fst (ingest sqrtf st w)) = advance (buf_idx st)) /\
  (forall sqrtf st w,
     well_formed st -> well_formed (fst (ingest sqrtf st w))) /\
  (forall sqrtf rfft_mag evs w,
     well_formed (fst (run sqrtf rfft_mag evs init_state w))).
Proof.
  split; [exact init_well_formed|].
  split; [exact advance_spec|].
  split; [exact ingest_buf_idx|].
  split; [exact ingest_well_formed|].
  intros sqrtf rfft_mag evs w. apply run_well_formed, init_well_formed.
Qed.

Lemma ring_cursor_invariant_witness :
  (advance 155 = 0 /\ advance 155 = (155 + 1) mod RAW_SAMPLES) /\
  (advance 7 = 8 /\ advance 7 = (7 + 1) mod RAW_SAMPLES) /\
  well_formed (fst (ingest sqrt_thousandths init_state dead_world)) /\
  well_formed
    (fst (run sqrt_thousandths silent_spectrum
            [(true, false); (true, true); (false, true)]
            init_state dead_world)).
Proof.
  destruct ring_cursor_invariant as (Hinit & Hadv & _ & Hing & Hrun).
  split; [|split; [|split]].
  - split; [reflexivity|]. apply (Hadv 155). rewrite raw_samples_value. lia.
  - split; [reflexivity|]. apply (Hadv 7). rewrite raw_samples_value. lia.
  - apply Hing. exact Hinit.
  - apply Hrun.
Defined.



End RingBuffer.

(** ** Start-up and register decoding *)

Section StartupFacts.

Import Sensor.
Local Open Scope Z_scope.

Lemma read_reg_byte (reg val : Z) (w : world) :
  snd (fst (read_reg reg val w)) = byte_after (bus w (bus_pos w) reg) val.
Proof.
  unfold byte_after.
  destruct (txn_fails (bus w (bus_pos w) reg)) eqn:E.
  - rewrite (read_reg_failure reg val w E). reflexivity.
  - rewrite (read_reg_success reg val w E). reflexivity.
Qed.

Lemma read_reg_flag (reg val : Z) (w : world) :
  fst (fst (read_reg reg val w)) = negb (txn_fails (bus w (bus_pos w) reg)).
Proof.
  destruct (txn_fails (bus w (bus_pos w) reg)) eqn:E.
  - rewrite (read_reg_failure reg val w E). reflexivity.
  - rewrite (read_reg_success reg val w E). reflexivity.
Qed.

Lemma byte_after_range (t : i2c_txn) (stale : Z) :
  0 <= stale < 256 -> 0 <= byte_after t stale < 256.
Proof.
  intros H. unfold byte_after.
  destruct (txn_fails t); [exact H|].
  apply Z.mod_pos_bound. reflexivity.
Qed.

(** A low byte and a shifted high byte do not overlap. *)
Lemma lor_shift_bytes (hi lo : Z) :
  0 <= lo < 256 -> Z.lor (Z.shiftl hi 8) lo = 256 * hi + lo.
Proof.
  intros Hlo.
  assert (Hland : Z.land (Z.shiftl hi 8) lo = 0).
  { apply Z.bits_inj'. intros n Hn.
    rewrite Z.land_spec, Z.bits_0.
    destruct (Z.lt_ge_cases n 8) as [Hlt|Hge].
    - rewrite Z.shiftl_spec_low by exact Hlt. reflexivity.
    - replace (Z.testbit lo n) with false; [apply andb_false_r|].
      symmetry. apply Z.testbit_false; [exact Hn|].
      rewrite Z.div_small; [reflexivity|].
      split; [lia|].
      apply Z.lt_le_trans with (2 ^ 8); [simpl; lia|].
      apply Z.pow_le_mono_r; lia. }
  pose proof (Z.add_lor_land (Z.shiftl hi 8) lo) as Hadd.
  rewrite Hland, Z.add_0_r in Hadd.
  rewrite Hadd, Z.shiftl_mul_pow2 by lia.
  change (2 ^ 8) with 256. ring.
Qed.

(** The 16-bit two's-complement value is recovered from its two bytes. *)
Lemma to_int16_bytes (v : Z) :
  is_int16 v -> to_int16 (256 * ((v / 256) mod 256) + v mod 256) = v.
Proof.
  unfold is_int16, to_int16. intros Hv.
  assert (H : 256 * ((v / 256) mod 256) + v mod 256 = v mod 65536).
  { change 65536 with (256 * 256).
    rewrite (Z.rem_mul_r v 256 256) by lia. ring. }
  rewrite H, Z.mod_mod by lia.
  destruct (Z.lt_ge_cases v 0) as [Hneg|Hpos].
  - assert (Hm : v mod 65536 = v + 65536).
    { symmetry. apply (Z.mod_unique v 65536 (-1)); lia. }
    rewrite Hm. destruct (Z.ltb_spec (v + 65536) 32768); lia.
  - rewrite Z.mod_small by lia.
    destruct (Z.ltb_spec v 32768); lia.
Qed.

Lemma read_axis_bytes (reg : Z) (w : world) :
  fst (read_axis reg w) =
  to_int16
    (256 * byte_after (bus w (S (bus_pos w)) ((reg + 1) mod 256))
                      (junk w (S (junk_pos w)) mod 256)
     + byte_after (bus w (bus_pos w) reg) (junk w (junk_pos w) mod 256)).
Proof.
  unfold read_axis, bind, uninit_uint8.
  pose proof (read_reg_byte reg (junk w (junk_pos w) mod 256)
                (mkWorld (bus w) (bus_pos w) (junk w) (S (S (junk_pos w))))) as B1.
  pose proof (read_reg_world reg (junk w (junk_pos w) mod 256)
                (mkWorld (bus w) (bus_pos w) (junk w) (S (S (junk_pos w))))) as W1.
  destruct (read_reg reg _ _) as [lo w1].
  cbn [fst snd bus bus_pos junk junk_pos] in B1, W1. subst w1.
  pose proof (read_reg_byte ((reg + 1) mod 256) (junk w (S (junk_pos w)) mod 256)
                (mkWorld (bus w) (S (bus_pos w)) (junk w) (S (S (junk_pos w))))) as B2.
  destruct (read_reg ((reg + 1) mod 256) _ _) as [hi w2].
  cbn [fst snd bus bus_pos junk junk_pos] in B2.
  unfold ret. cbn [fst]. rewrite B1, B2.
  rewrite lor_shift_bytes; [reflexivity|].
  apply byte_after_range, Z.mod_pos_bound. reflexivity.
Qed.

(** What [read_axis] returns: the little-endian 16-bit two's-complement
    value of a low and a high byte, each being the byte read from the bus
    when its access succeeded and the uninitialised local otherwise. *)
Theorem read_axis_decodes (reg : Z) (w : world) :
  fst (read_axis reg w) =
  to_int16
    (256 * byte_after (bus w (S (bus_pos w)) ((reg + 1) mod 256))
                      (junk w (S (junk_pos w)) mod 256)
     + byte_after (bus w (bus_pos w) reg) (junk w (junk_pos w) mod 256)).
Proof. exact (read_axis_bytes reg w). Qed.

(** Round trip: when both accesses succeed and the device presents the two
    bytes of a 16-bit value [v], low byte first, [read_axis] returns [v]. *)
Theorem read_axis_round_trip (reg v : Z) (w : world) :
  is_int16 v ->
  bus w (bus_pos w) reg = mkTxn 0 0 (v mod 256) ->
  bus w (S (bus_pos w)) ((reg + 1) mod 256) = mkTxn 0 0 ((v / 256) mod 256) ->
  fst (read_axis reg w) = v.
Proof.
  intros Hv Hlo Hhi.
  rewrite read_axis_bytes, Hlo, Hhi.
  unfold byte_after, txn_fails. cbn [write_status read_status read_byte].
  cbn [Z.eqb negb orb].
  rewrite !Z.mod_mod by lia.
  apply to_int16_bytes. exact Hv.
Qed.

Lemma read_axis_round_trip_witness :
  fst (read_axis OUTX_L_XL
         (mkWorld (fun n _ => match n with
                              | O => mkTxn 0 0 (-1234 mod 256)
                              | _ => mkTxn 0 0 ((-1234 / 256) mod 256)
                              end) 0 (fun _ => 0) 0)) = -1234.
Proof.
  apply read_axis_round_trip; [unfold is_int16; lia | reflexivity | reflexivity].
Defined.

End StartupFacts.

Section InitFacts.

Import Sensor.
Local Open Scope Z_scope.

Lemma write_reg_run (reg val : Z) (log : list reg_write) (w : world) :
  write_reg reg val log w =
  (log ++ [mkWrite reg val (write_status (bus w (bus_pos w) reg) =? 0)],
   mkWorld (bus w) (S (bus_pos w)) (junk w) (junk_pos w)).
Proof. reflexivity. Qed.

Lemma init_sensor_run (w : world) :
  init_sensor w =
  if who_seen w =? 0x6A then
    (true,
     [mkWrite CTRL3_C 0x44
        (write_status (bus w (S (bus_pos w)) CTRL3_C) =? 0);
      mkWrite CTRL1_XL 0x40
        (write_status (bus w (S (S (bus_pos w))) CTRL1_XL) =? 0);
      mkWrite CTRL2_G 0x40
        (write_status (bus w (S (S (S (bus_pos w)))) CTRL2_G) =? 0)],
     mkWorld (bus w) (4 + bus_pos w) (junk w) (S (junk_pos w)))
  else
    (false, [], mkWorld (bus w) (S (bus_pos w)) (junk w) (S (junk_pos w))).
Proof.
  unfold init_sensor, who_seen, bind, uninit_uint8.
  pose proof (read_reg_byte WHO_AM_I (junk w (junk_pos w) mod 256)
                (mkWorld (bus w) (bus_pos w) (junk w) (S (junk_pos w)))) as B.
  pose proof (read_reg_world WHO_AM_I (junk w (junk_pos w) mod 256)
                (mkWorld (bus w) (bus_pos w) (junk w) (S (junk_pos w)))) as W.
  destruct (read_reg WHO_AM_I _ _) as [who w1].
  cbn [fst snd bus bus_pos junk junk_pos] in B, W. subst w1. rewrite <- B.
  destruct (Z.eqb_spec (snd who) 0x6A) as [Heq|Hne]; cbn [negb].
  - rewrite !write_reg_run. reflexivity.
  - reflexivity.
Qed.

(** [init_sensor] compares with 0x6A the identity byte it sees, which is
    the uninitialised local when the read failed.  On a mismatch it writes
    nothing; on a match it issues the three configuration writes in order
    and reports success whether or not they were acknowledged. *)
Theorem init_sensor_outcome (w : world) :
  fst (fst (init_sensor w)) = (who_seen w =? 0x6A) /\
  (who_seen w <> 0x6A ->
   snd (fst (init_sensor w)) = [] /\
   bus_pos (snd (init_sensor w)) = S (bus_pos w)) /\
  (who_seen w = 0x6A ->
   snd (fst (init_sensor w)) =
     [mkWrite CTRL3_C 0x44
        (write_status (bus w (S (bus_pos w)) CTRL3_C) =? 0);
      mkWrite CTRL1_XL 0x40
        (write_status (bus w (S (S (bus_pos w))) CTRL1_XL) =? 0);
      mkWrite CTRL2_G 0x40
        (write_status (bus w (S (S (S (bus_pos w)))) CTRL2_G) =? 0)] /\
   bus_pos (snd (init_sensor w)) = (4 + bus_pos w)%nat).
Proof.
  rewrite init_sensor_run.
  destruct (Z.eqb_spec (who_seen w) 0x6A) as [Heq|Hne]; cbn [fst snd bus_pos].
  - split; [reflexivity|]. split; [intros H; contradiction|].
    intros _. split; reflexivity.
  - split; [reflexivity|]. split; [|intros H; contradiction].
    intros _. split; reflexivity.
Qed.

Lemma init_sensor_outcome_witness :
  fst (init_sensor dead_world) = (false, []) /\
  fst (fst (init_sensor
              (mkWorld (live_bus (fun _ => 0x6A)) 0 (fun _ => 0) 0))) = true /\
  snd (fst (init_sensor
              (mkWorld (live_bus (fun _ => 0x6A)) 0 (fun _ => 0) 0))) =
    [mkWrite CTRL3_C 0x44 true; mkWrite CTRL1_XL 0x40 true;
     mkWrite CTRL2_G 0x40 true].
Proof.
  destruct (init_sensor_outcome dead_world) as (Hf & Hno & _).
  destruct (init_sensor_outcome
              (mkWorld (live_bus (fun _ => 0x6A)) 0 (fun _ => 0) 0))
    as (Hf' & _ & Hyes).
  split; [|split].
  - destruct (Hno ltac:(discriminate)) as [Hl _].
    rewrite (surjective_pairing (fst (init_sensor dead_world))), Hf, Hl.
    reflexivity.
  - rewrite Hf'. reflexivity.
  - destruct (Hyes eq_refl) as [Hl _]. rewrite Hl. reflexivity.
Defined.

(** The demo's [init_sensor] succeeds exactly when the identity read
    succeeded and returned 0x6A. *)
Lemma demo_init_sensor_flag (w : world) :
  fst (fst (Demo.demo_init_sensor w)) =
  negb (txn_fails (bus w (bus_pos w) WHO_AM_I)) && (who_seen w =? 0x6A).
Proof.
  unfold Demo.demo_init_sensor, who_seen, bind, uninit_uint8.
  pose proof (read_reg_byte WHO_AM_I (junk w (junk_pos w) mod 256)
                (mkWorld (bus w) (bus_pos w) (junk w) (S (junk_pos w)))) as B.
  pose proof (read_reg_flag WHO_AM_I (junk w (junk_pos w) mod 256)
                (mkWorld (bus w) (bus_pos w) (junk w) (S (junk_pos w)))) as F.
  pose proof (read_reg_world WHO_AM_I (junk w (junk_pos w) mod 256)
                (mkWorld (bus w) (bus_pos w) (junk w) (S (junk_pos w)))) as W.
  destruct (read_reg WHO_AM_I _ _) as [who w1].
  cbn [fst snd bus bus_pos junk junk_pos] in B, F, W. subst w1.
  rewrite <- B, <- F.
  destruct (fst who), (Z.eqb_spec (snd who) 0x6A); reflexivity.
Qed.

(** When the identity read fails, [init_sensor] of the detector is decided
    by the uninitialised byte alone and succeeds if that byte happens to be
    0x6A, while [init_sensor] of the demo, which tests the flag of
    [read_reg], fails. *)
Theorem identity_read_failure (w : world) :
  txn_fails (bus w (bus_pos w) WHO_AM_I) = true ->
  fst (fst (init_sensor w)) = (junk w (junk_pos w) mod 256 =? 0x6A) /\
  fst (fst (Demo.demo_init_sensor w)) = false.
Proof.
  intros Hfail.
  rewrite init_sensor_run, demo_init_sensor_flag, Hfail.
  unfold who_seen, byte_after. rewrite Hfail.
  split; [|reflexivity].
  now destruct (junk w (junk_pos w) mod 256 =? 0x6A).
Qed.

Lemma identity_read_failure_witness :
  fst (fst (init_sensor (mkWorld dead_bus 0 (fun _ => 0x6A) 0))) = true /\
  fst (fst (Demo.demo_init_sensor (mkWorld dead_bus 0 (fun _ => 0x6A) 0))) = false.
Proof.
  apply (identity_read_failure (mkWorld dead_bus 0 (fun _ => 0x6A) 0)).
  reflexivity.
Defined.

End InitFacts.

(** ** Runs of the main loop *)

Section RunFacts.

Import Sensor.
Local Open Scope Z_scope.

Variable sqrtf : Q -> Q.
Variable rfft_mag : list Q -> list Q.

Lemma loop_turn_buf_idx (st : state) (ev : bool * bool) (w : world) :
  buf_idx (fst (loop_turn sqrtf rfft_mag st ev w)) =
  if fst ev then advance (buf_idx st) else buf_idx st.
Proof.
  unfold loop_turn. rewrite bind_run. unfold ret. cbn [fst].
  destruct (fst ev).
  - rewrite <- (ingest_buf_idx sqrtf st w). now destruct (snd ev).
  - cbn [fst]. now destruct (snd ev).
Qed.

Lemma loop_turn_world (st : state) (ev : bool * bool) (w : world) :
  snd (loop_turn sqrtf rfft_mag st ev w) =
  if fst ev
  then mkWorld (bus w) (12 + bus_pos w) (junk w) (12 + junk_pos w)
  else w.
Proof.
  unfold loop_turn. rewrite bind_run. unfold ret. cbn [snd].
  destruct (fst ev); [apply ingest_world | reflexivity].
Qed.

Lemma ticks_cons (ev : bool * bool) (evs : list (bool * bool)) :
  ticks (ev :: evs) = ((if fst ev then 1 else 0) + ticks evs)%nat.
Proof. unfold ticks. cbn [List.filter]. now destruct (fst ev). Qed.

Lemma run_buf_idx (evs : list (bool * bool)) (st : state) (w : world) :
  0 <= buf_idx st < RAW_SAMPLES ->
  buf_idx (fst (run sqrtf rfft_mag evs st w)) =
  (buf_idx st + Z.of_nat (ticks evs)) mod RAW_SAMPLES.
Proof.
  revert st w. induction evs as [|ev evs IH]; intros st w Hi.
  - cbn [run ret fst]. unfold ticks. cbn [List.filter length Z.of_nat].
    rewrite Z.add_0_r, Z.mod_small; [reflexivity | exact Hi].
  - cbn [run]. rewrite bind_run, ticks_cons.
    pose proof (loop_turn_buf_idx st ev w) as Hstep.
    destruct (advance_spec (buf_idx st) Hi) as [Hr Hm].
    rewrite IH.
    + rewrite Hstep. destruct (fst ev).
      * rewrite Hm, Z.add_mod_idemp_l by (rewrite raw_samples_value; lia).
        f_equal. lia.
      * f_equal.
    + rewrite Hstep. destruct (fst ev); assumption.
Qed.

Lemma run_world (evs : list (bool * bool)) (st : state) (w : world) :
  snd (run sqrtf rfft_mag evs st w) =
  mkWorld (bus w) (12 * ticks evs + bus_pos w) (junk w)
          (12 * ticks evs + junk_pos w).
Proof.
  revert st w. induction evs as [|ev evs IH]; intros st w.
  - cbn [run ret snd]. now destruct w.
  - cbn [run]. rewrite bind_run, IH, loop_turn_world, ticks_cons.
    destruct (fst ev); cbn [bus bus_pos junk junk_pos]; f_equal; lia.
Qed.

(** After any run of the main loop from a state whose index is in range,
    the write index is the starting index plus the number of samples taken,
    modulo RAW_SAMPLES, and the bus has seen exactly twelve accesses per
    sample: analysis passes move neither. *)
Theorem run_counts_samples (evs : list (bool * bool)) (st : state) (w : world) :
  0 <= buf_idx st < RAW_SAMPLES ->
  buf_idx (fst (run sqrtf rfft_mag evs st w)) =
    (buf_idx st + Z.of_nat (ticks evs)) mod RAW_SAMPLES /\
  bus_pos (snd (run sqrtf rfft_mag evs st w)) = (12 * ticks evs + bus_pos w)%nat.
Proof.
  intros Hi. split; [apply run_buf_idx; exact Hi|].
  rewrite run_world. reflexivity.
Qed.

(** [main] with a sensor whose identity byte is not 0x6A never enters the
    loop: whatever the timers do, the buffers and the indicators stay as
    initialised and the bus sees the identity access only. *)
Theorem main_halts_on_mismatch (evs : list (bool * bool)) (w : world) :
  who_seen w <> 0x6A ->
  fst (main sqrtf rfft_mag evs w) = init_state /\
  bus_pos (snd (main sqrtf rfft_mag evs w)) = S (bus_pos w).
Proof.
  intros Hne. unfold main, bind. rewrite init_sensor_run.
  destruct (Z.eqb_spec (who_seen w) 0x6A) as [Heq|_]; [contradiction|].
  split; reflexivity.
Qed.

(** [main] with a sensor that identifies itself runs the loop from the
    initial state after the four start-up accesses: the state stays well
    formed, the write index counts the samples modulo RAW_SAMPLES and each
    sample costs twelve accesses. *)
Theorem main_runs_loop (evs : list (bool * bool)) (w : world) :
  who_seen w = 0x6A ->
  well_formed (fst (main sqrtf rfft_mag evs w)) /\
  buf_idx (fst (main sqrtf rfft_mag evs w)) =
    Z.of_nat (ticks evs) mod RAW_SAMPLES /\
  bus_pos (snd (main sqrtf rfft_mag evs w)) =
    (12 * ticks evs + 4 + bus_pos w)%nat.
Proof.
  intros Heq. unfold main, bind. rewrite init_sensor_run.
  rewrite Heq. cbn [Z.eqb Pos.eqb fst].
  split; [apply run_well_formed, init_well_formed|].
  split.
  - rewrite run_buf_idx; [reflexivity|].
    cbn [init_state buf_idx]. rewrite raw_samples_value. lia.
  - rewrite run_world. cbn [bus_pos]. lia.
Qed.

End RunFacts.

Section RunWitnesses.

Import Sensor.
Local Open Scope Z_scope.

Lemma run_counts_samples_witness :
  buf_idx (fst (run sqrt_thousandths silent_spectrum
                  (repeat (true, false) 157 ++ [(false, true)])
                  init_state dead_world)) = 1 /\
  bus_pos (snd (run sqrt_thousandths silent_spectrum
                  (repeat (true, false) 157 ++ [(false, true)])
                  init_state dead_world)) = 1884%nat.
Proof.
  apply (run_counts_samples sqrt_thousandths silent_spectrum
           (repeat (true, false) 157 ++ [(false, true)]) init_state dead_world).
  cbn [init_state buf_idx]. rewrite raw_samples_value. lia.
Defined.

Lemma main_halts_on_mismatch_witness :
  fst (main sqrt_thousandths silent_spectrum
         [(true, false); (true, true)] dead_world) = init_state /\
  bus_pos (snd (main sqrt_thousandths silent_spectrum
                  [(true, false); (true, true)] dead_world)) = 1%nat.
Proof.
  apply (main_halts_on_mismatch sqrt_thousandths silent_spectrum
           [(true, false); (true, true)] dead_world).
  vm_compute. discriminate.
Defined.

Lemma main_runs_loop_witness :
  buf_idx (fst (main sqrt_thousandths silent_spectrum
                  [(true, false); (true, true)]
                  (mkWorld (live_bus (fun _ => 0x6A)) 0 (fun _ => 0) 0))) = 2 /\
  bus_pos (snd (main sqrt_thousandths silent_spectrum
                  [(true, false); (true, true)]
                  (mkWorld (live_bus (fun _ => 0x6A)) 0 (fun _ => 0) 0))) = 28%nat.
Proof.
  apply (main_runs_loop sqrt_thousandths silent_spectrum
           [(true, false); (true, true)]
           (mkWorld (live_bus (fun _ => 0x6A)) 0 (fun _ => 0) 0)).
  reflexivity.
Defined.

End RunWitnesses.

(** ** What the ring buffers hold *)

Section BufferFacts.

Import Sensor.
Local Open Scope Z_scope.

Variable sqrtf : Q -> Q.
Variable rfft_mag : list Q -> list Q.

(** An ingest step writes one slot of each buffer, the one at the write
    index; every other slot and the indicators keep their content. *)
Theorem ingest_writes_one_slot (st : state) (w : world) (j : nat) :
  j <> Z.to_nat (buf_idx st) ->
  accel_buf (fst (ingest sqrtf st w)) !! j = accel_buf st !! j /\
  gyro_buf (fst (ingest sqrtf st w)) !! j = gyro_buf st !! j /\
  indicators (fst (ingest sqrtf st w)) = indicators st.
Proof.
  intros Hj.
  destruct (ingest_state sqrtf st w) as (x & y & z & gx & gy & gz & _ & _ & ->).
  cbn [accel_buf gyro_buf indicators].
  rewrite !store_other by exact Hj. auto.
Qed.

Lemma ingest_recent (st : state) (w : world) (n : Z) :
  well_formed st -> 0 <= n ->
  recent sqrtf st n ->
  recent sqrtf (fst (ingest sqrtf st w)) (Z.min (n + 1) RAW_SAMPLES).
Proof.
  intros (Ha & Hg & Hi) Hn Hrec m Hm.
  destruct (ingest_state sqrtf st w)
    as (x & y & z & gx & gy & gz & Hxyz & Hg3 & ->).
  cbn [accel_buf gyro_buf buf_idx].
  rewrite raw_samples_value in *.
  assert (Hslot : (advance (buf_idx st) - 1 - m) mod 156 = (buf_idx st - m) mod 156).
  { unfold advance. rewrite raw_samples_value.
    destruct (Z.geb_spec (buf_idx st + 1) 156).
    - replace (0 - 1 - m) with (buf_idx st - m + (-1) * 156) by lia.
      apply Z.mod_add. lia.
    - f_equal. lia. }
  rewrite Hslot.
  destruct (Z.eq_dec m 0) as [->|Hm0].
  - rewrite Z.sub_0_r, Z.mod_small by lia.
    exists (magnitude sqrtf ACCEL_SCALE x y z), (magnitude sqrtf GYRO_SCALE gx gy gz).
    rewrite !store_lookup by lia.
    split; [reflexivity|]. split; [reflexivity|].
    split.
    + exists x, y, z. tauto.
    + exists gx, gy, gz. tauto.
  - destruct (Hrec (m - 1) ltac:(lia)) as (a & g & Hla & Hlg & Hma & Hmg).
    replace (buf_idx st - 1 - (m - 1)) with (buf_idx st - m) in Hla, Hlg by lia.
    exists a, g.
    assert (Hne : Z.to_nat ((buf_idx st - m) mod 156) <> Z.to_nat (buf_idx st)).
    { pose proof (Z.mod_pos_bound (buf_idx st - m) 156 eq_refl) as Hb.
      intros Heq. apply Z2Nat.inj in Heq; [|lia|lia].
      assert (Hd : ((buf_idx st - m) - buf_idx st) mod 156 = 0).
      { rewrite Zminus_mod, Heq, (Z.mod_small (buf_idx st)) by lia.
        rewrite Z.sub_diag. reflexivity. }
      replace (buf_idx st - m - buf_idx st) with (- m) in Hd by lia.
      apply Z.mod_divide in Hd; [|lia].
      destruct Hd as [q Hq]. lia. }
    rewrite !store_other by exact Hne. tauto.
Qed.

Lemma recent_weaken (st : state) (n n' : Z) :
  n' <= n -> recent sqrtf st n -> recent sqrtf st n'.
Proof. intros Hle H m Hm. apply H. lia. Qed.

Lemma loop_turn_recent (st : state) (ev : bool * bool) (w : world) (n : Z) :
  well_formed st -> 0 <= n ->
  recent sqrtf st n ->
  recent sqrtf (fst (loop_turn sqrtf rfft_mag st ev w))
         (Z.min (n + (if fst ev then 1 else 0)) RAW_SAMPLES).
Proof.
  intros Hwf Hn Hrec. unfold loop_turn. rewrite bind_run. unfold ret. cbn [fst].
  assert (H1 : recent sqrtf (fst ((if fst ev then ingest sqrtf st else ret st) w))
                 (Z.min (n + (if fst ev then 1 else 0)) RAW_SAMPLES)).
  { destruct (fst ev).
    - apply ingest_recent; assumption.
    - cbn [ret fst]. apply (recent_weaken st n); [lia | exact Hrec]. }
  destruct (snd ev); exact H1.
Qed.

Lemma run_recent (evs : list (bool * bool)) (st : state) (w : world) (n : Z) :
  well_formed st -> 0 <= n ->
  recent sqrtf st n ->
  recent sqrtf (fst (run sqrtf rfft_mag evs st w))
         (Z.min (n + Z.of_nat (ticks evs)) RAW_SAMPLES).
Proof.
  revert st w n. induction evs as [|ev evs IH]; intros st w n Hwf Hn Hrec.
  - cbn [run ret fst]. apply (recent_weaken st n); [|exact Hrec].
    unfold ticks. cbn [List.filter length Z.of_nat]. lia.
  - cbn [run]. rewrite bind_run.
    pose proof (loop_turn_recent st ev w n Hwf Hn Hrec) as Hstep.
    pose proof (loop_turn_well_formed sqrtf rfft_mag st ev w Hwf) as Hwf'.
    assert (Hn' : 0 <= Z.min (n + (if fst ev then 1 else 0)) RAW_SAMPLES).
    { rewrite raw_samples_value. destruct (fst ev); lia. }
    eapply recent_weaken; [|apply (IH _ _ _ Hwf' Hn' Hstep)].
    rewrite ticks_cons, raw_samples_value.
    destruct (fst ev); lia.
Qed.

(** Once RAW_SAMPLES samples have been taken, from any well-formed state
    and with analysis passes interleaved at will, every slot of both
    buffers holds the magnitude of a reading: nothing of the earlier
    content is left. *)
Theorem window_is_refilled (evs : list (bool * bool)) (st : state) (w : world) :
  well_formed st ->
  (Z.to_nat RAW_SAMPLES <= ticks evs)%nat ->
  forall j : nat, (j < Z.to_nat RAW_SAMPLES)%nat ->
    exists a g : Q,
      accel_buf (fst (run sqrtf rfft_mag evs st w)) !! j = Some a /\
      gyro_buf (fst (run sqrtf rfft_mag evs st w)) !! j = Some g /\
      is_magnitude sqrtf ACCEL_SCALE a /\ is_magnitude sqrtf GYRO_SCALE g.
Proof.
  intros Hwf Hticks j Hj.
  assert (H0 : recent sqrtf st 0) by (intros m Hm; lia).
  pose proof (run_recent evs st w 0 Hwf (Z.le_refl 0) H0) as Hrec.
  pose proof (run_well_formed sqrtf rfft_mag evs st w Hwf) as (_ & _ & Hi).
  set (st' := fst (run sqrtf rfft_mag evs st w)) in *.
  rewrite raw_samples_value in *.
  rewrite Z.min_r in Hrec by lia.
  destruct (Hrec ((buf_idx st' - 1 - Z.of_nat j) mod 156)) as (a & g & Hla & Hlg & Hm).
  { apply Z.mod_pos_bound. reflexivity. }
  rewrite raw_samples_value in Hla, Hlg.
  assert (Hslot : (buf_idx st' - 1 - (buf_idx st' - 1 - Z.of_nat j) mod 156) mod 156
                  = Z.of_nat j).
  { rewrite Zminus_mod_idemp_r.
    replace (buf_idx st' - 1 - (buf_idx st' - 1 - Z.of_nat j)) with (Z.of_nat j) by lia.
    apply Z.mod_small. lia. }
  rewrite Hslot, Nat2Z.id in Hla, Hlg.
  exists a, g. tauto.
Qed.

End BufferFacts.

Section BufferWitnesses.

Import Sensor.

Lemma ingest_writes_one_slot_witness :
  accel_buf (fst (ingest sqrt_thousandths init_state dead_world)) !! 5%nat
    = Some 0 /\
  gyro_buf (fst (ingest sqrt_thousandths init_state dead_world)) !! 5%nat
    = Some 0 /\
  indicators (fst (ingest sqrt_thousandths init_state dead_world))
    = Classifier.mkLeds false false false.
Proof.
  apply (ingest_writes_one_slot sqrt_thousandths init_state dead_world 5).
  discriminate.
Defined.

Lemma window_is_refilled_witness :
  exists a g : Q,
    accel_buf (fst (run sqrt_thousandths silent_spectrum
                      (repeat (true, true) 156) init_state dead_world)) !! 155%nat
      = Some a /\
    gyro_buf (fst (run sqrt_thousandths silent_spectrum
                      (repeat (true, true) 156) init_state dead_world)) !! 155%nat
      = Some g /\
    is_magnitude sqrt_thousandths ACCEL_SCALE a /\
    is_magnitude sqrt_thousandths GYRO_SCALE g.
Proof.
  apply (window_is_refilled sqrt_thousandths silent_spectrum
           (repeat (true, true) 156) init_state dead_world).
  - exact init_well_formed.
  - apply Nat.leb_le. reflexivity.
  - apply Nat.ltb_lt. reflexivity.
Defined.

End BufferWitnesses.

(** ** Band energies in closed form *)

Section BandSums.

Import Extractor Analyzer.

Lemma band_loop_fst (inA inB : Q -> bool) (mag : list Q) (l : list nat) (a b : Q) :
  fst (fold_left (band_step inA inB mag) l (a, b)) =
  fold_left (fun s k => if inA (bin_freq k) then s + nth k mag 0 else s) l a.
Proof.
  revert a b. induction l as [|k l IH]; intros a b; [reflexivity|].
  cbn [fold_left]. unfold band_step at 2. cbn [fst snd]. apply IH.
Qed.

Lemma band_loop_snd (inA inB : Q -> bool) (mag : list Q) (l : list nat) (a b : Q) :
  snd (fold_left (band_step inA inB mag) l (a, b)) =
  fold_left (fun s k => if inB (bin_freq k) then s + nth k mag 0 else s) l b.
Proof.
  revert a b. induction l as [|k l IH]; intros a b; [reflexivity|].
  cbn [fold_left]. unfold band_step at 2. cbn [fst snd]. apply IH.
Qed.

(** A conditional accumulation is the sum over the indices that pass the
    test. *)
Lemma select_sum (test : Q -> bool) (mag : list Q) (l : list nat) (a : Q) :
  fold_left (fun s k => if test (bin_freq k) then s + nth k mag 0 else s) l a ==
  a + sum_over (fun k => nth k mag 0)
               (List.filter (fun k => test (bin_freq k)) l).
Proof.
  revert a. induction l as [|k l IH]; intros a.
  - simpl. ring.
  - cbn [fold_left List.filter]. rewrite IH.
    destruct (test (bin_freq k)); cbn [sum_over]; ring.
Qed.

Lemma band_loop_sums (inA inB : Q -> bool) (mag : list Q) :
  fst (band_loop inA inB mag) ==
    sum_over (fun k => nth k mag 0)
             (List.filter (fun k => inA (bin_freq k)) bins) /\
  snd (band_loop inA inB mag) ==
    sum_over (fun k => nth k mag 0)
             (List.filter (fun k => inB (bin_freq k)) bins).
Proof.
  unfold band_loop. rewrite band_loop_fst, band_loop_snd, !select_sum.
  split; apply Qplus_0_l.
Qed.

Lemma sum_over_nonneg (g : nat -> Q) (l : list nat) :
  (forall k, 0 <= g k) -> 0 <= sum_over g l.
Proof.
  intros H. induction l as [|k l IH]; cbn [sum_over]; [apply Qle_refl|].
  pose proof (H k). lra.
Qed.

Lemma band_loop_nonneg (inA inB : Q -> bool) (mag : list Q) :
  (forall k, 0 <= nth k mag 0) ->
  0 <= fst (band_loop inA inB mag) /\ 0 <= snd (band_loop inA inB mag).
Proof.
  intros H. destruct (band_loop_sums inA inB mag) as [-> ->].
  split; apply sum_over_nonneg; exact H.
Qed.

(** With 52 Hz sampling and a 256-point transform the walk energy is the
    sum of bins 3..14, the fog energy the sum of bins 15..39, the tremor
    energy the sum of bins 15..24 and the dyskinesia energy the sum of bins
    25..34; every other bin of either spectrum is ignored. *)
Theorem band_energies_closed_form (mag : list Q) :
  fst (accel_bands mag) == sum_over (fun k => nth k mag 0) (seq 3 12) /\
  snd (accel_bands mag) == sum_over (fun k => nth k mag 0) (seq 15 25) /\
  fst (gyro_bands mag) == sum_over (fun k => nth k mag 0) (seq 15 10) /\
  snd (gyro_bands mag) == sum_over (fun k => nth k mag 0) (seq 25 10).
Proof.
  destruct (band_loop_sums in_walk in_fog mag) as [Hw Hf].
  destruct (band_loop_sums in_tremor in_dysk mag) as [Ht Hd].
  unfold accel_bands, gyro_bands.
  rewrite Hw, Hf, Ht, Hd.
  repeat split; apply Qeq_refl.
Qed.

(** Nonnegative magnitudes give nonnegative band energies on both
    channels. *)
Theorem band_sums_nonneg (mag : list Q) :
  (forall k, 0 <= nth k mag 0) ->
  0 <= fst (accel_bands mag) /\ 0 <= snd (accel_bands mag) /\
  0 <= fst (gyro_bands mag) /\ 0 <= snd (gyro_bands mag).
Proof.
  intros H.
  destruct (band_loop_nonneg in_walk in_fog mag H).
  destruct (band_loop_nonneg in_tremor in_dysk mag H).
  unfold accel_bands, gyro_bands. tauto.
Qed.

Lemma impulse_nonneg (n k : nat) : 0 <= nth k (impulse n) 0.
Proof.
  unfold impulse.
  destruct (Nat.lt_ge_cases k (length (seq 0 (Z.to_nat (FFT_SIZE / 2))))) as [Hlt|Hge].
  - rewrite (nth_indep _ 0 ((fun j => if Nat.eqb j n then 1 else 0) 0%nat))
      by (rewrite length_map; exact Hlt).
    rewrite (map_nth (fun j => if Nat.eqb j n then 1 else 0)).
    destruct (Nat.eqb _ n); discriminate.
  - rewrite nth_overflow by (rewrite length_map; exact Hge). apply Qle_refl.
Qed.

Lemma impulse_le_one (n k : nat) : nth k (impulse n) 0 <= 1.0.
Proof.
  unfold impulse.
  destruct (Nat.lt_ge_cases k (length (seq 0 (Z.to_nat (FFT_SIZE / 2))))) as [Hlt|Hge].
  - rewrite (nth_indep _ 0 ((fun j => if Nat.eqb j n then 1 else 0) 0%nat))
      by (rewrite length_map; exact Hlt).
    rewrite (map_nth (fun j => if Nat.eqb j n then 1 else 0)).
    destruct (Nat.eqb _ n); discriminate.
  - rewrite nth_overflow by (rewrite length_map; exact Hge). discriminate.
Qed.

Lemma band_sums_nonneg_witness :
  0 <= fst (accel_bands (impulse 20)) /\ 0 <= snd (accel_bands (impulse 20)) /\
  0 <= fst (gyro_bands (impulse 20)) /\ 0 <= snd (gyro_bands (impulse 20)).
Proof.
  apply (band_sums_nonneg (impulse 20)). apply impulse_nonneg.
Defined.

End BandSums.

(** ** Indicators in every reachable state *)

Section IndicatorFacts.

Import Sensor Classifier.

Variable sqrtf : Q -> Q.
Variable rfft_mag : list Q -> list Q.

Lemma loop_turn_indicators (st : state) (ev : bool * bool) (w : world) :
  indicators (fst (loop_turn sqrtf rfft_mag st ev w)) = indicators st \/
  exists st1 : state,
    indicators (fst (loop_turn sqrtf rfft_mag st ev w)) =
    drive_leds (band_energies rfft_mag st1).
Proof.
  unfold loop_turn. rewrite bind_run. unfold ret. cbn [fst].
  destruct (snd ev).
  - right. eexists. reflexivity.
  - left. destruct (fst ev); [|reflexivity].
    destruct (ingest_state sqrtf st w) as (x & y & z & gx & gy & gz & _ & _ & ->).
    reflexivity.
Qed.

Lemma run_indicators (evs : list (bool * bool)) (st : state) (w : world) :
  indicators (fst (run sqrtf rfft_mag evs st w)) = indicators st \/
  exists st1 : state,
    indicators (fst (run sqrtf rfft_mag evs st w)) =
    drive_leds (band_energies rfft_mag st1).
Proof.
  revert st w. induction evs as [|ev evs IH]; intros st w.
  - left. reflexivity.
  - cbn [run]. rewrite bind_run.
    destruct (IH (fst (loop_turn sqrtf rfft_mag st ev w))
                 (snd (loop_turn sqrtf rfft_mag st ev w))) as [Hsame|Hnew].
    + rewrite Hsame. apply loop_turn_indicators.
    + right. exact Hnew.
Qed.


Lemma drive_leds_freeze_dysk (e : BandEnergySet) :
  led_freeze (drive_leds e) && led_dysk (drive_leds e) = false.
Proof.
  change (freezingFlag e && dyskinesiaFlag e = false).
  rewrite freezingFlag_is_freezing, dyskinesiaFlag_unfold.
  now destruct (freezing e).
Qed.


(** At every moment of the program, from start-up on and whatever the bus
    and the transform return, the freeze and the dyskinesia indicator are
    not both on. *)
Theorem leds_never_freeze_and_dysk (evs : list (bool * bool)) (w : world) :
  led_freeze (indicators (fst (run sqrtf rfft_mag evs init_state w))) &&
  led_dysk (indicators (fst (run sqrtf rfft_mag evs init_state w))) = false.
Proof.
  destruct (run_indicators evs init_state w) as [-> | [st1 ->]].
  - reflexivity.
  - apply drive_leds_freeze_dysk.
Qed.


(** An analysis pass reads the two buffers and nothing else: it leaves the
    buffers and the write index alone, and the indicators it sets do not
    depend on the indicators or the index it found, so repeating it changes
    nothing. *)
Theorem analysis_pass_is_stateless (st st' : state) :
  accel_buf st = accel_buf st' ->
  gyro_buf st = gyro_buf st' ->
  indicators (analysis_pass rfft_mag st) = indicators (analysis_pass rfft_mag st') /\
  accel_buf (analysis_pass rfft_mag st) = accel_buf st /\
  gyro_buf (analysis_pass rfft_mag st) = gyro_buf st /\
  buf_idx (analysis_pass rfft_mag st) = buf_idx st /\
  analysis_pass rfft_mag (analysis_pass rfft_mag st) = analysis_pass rfft_mag st.
Proof.
  intros Ha Hg. unfold analysis_pass, band_energies.
  cbn [indicators accel_buf gyro_buf buf_idx].
  rewrite Ha, Hg. repeat split; reflexivity.
Qed.

End IndicatorFacts.

Section IndicatorWitnesses.

Import Sensor Classifier.



Lemma analysis_pass_is_stateless_witness :
  indicators (analysis_pass silent_spectrum init_state) =
  indicators (analysis_pass silent_spectrum
                (mkState (accel_buf init_state) (gyro_buf init_state) 7
                         (mkLeds true true true))).
Proof.
  apply (analysis_pass_is_stateless silent_spectrum init_state
           (mkState (accel_buf init_state) (gyro_buf init_state) 7
                    (mkLeds true true true))); reflexivity.
Defined.

End IndicatorWitnesses.

(** ** The working buffer of the transform *)

Section PaddingFacts.

Import Analyzer.

Lemma sum_over_app (g : nat -> Q) (l1 l2 : list nat) :
  sum_over g (l1 ++ l2) == sum_over g l1 + sum_over g l2.
Proof.
  induction l1 as [|i l1 IH]; cbn [app sum_over]; [ring|].
  rewrite IH. ring.
Qed.

Lemma sum_over_zero (g : nat -> Q) (l : list nat) :
  (forall i, In i l -> g i == 0) -> sum_over g l == 0.
Proof.
  induction l as [|i l IH]; intros H; cbn [sum_over]; [reflexivity|].
  rewrite (H i (or_introl eq_refl)), IH; [ring|].
  intros j Hj. apply H. now right.
Qed.

Lemma fill_fft_in_head (buf : list Q) (i : nat) :
  (i < Z.to_nat RAW_SAMPLES)%nat ->
  nth i (fill_fft_in buf) 0 = nth i buf 0 - window_mean buf.
Proof.
  intros Hi. unfold fill_fft_in.
  rewrite app_nth1; [apply detrend_nth; exact Hi|].
  unfold detrend. rewrite length_map, samples_length. exact Hi.
Qed.

Lemma fill_fft_in_tail (buf : list Q) (i : nat) :
  (Z.to_nat RAW_SAMPLES <= i)%nat -> nth i (fill_fft_in buf) 0 = 0.
Proof.
  intros Hi. unfold fill_fft_in.
  rewrite app_nth2; unfold detrend; rewrite length_map, samples_length;
    [|exact Hi].
  destruct (nth_in_or_default (i - Z.to_nat RAW_SAMPLES)
              (repeat 0 (Z.to_nat (FFT_SIZE - RAW_SAMPLES))) 0) as [Hin| ->];
    [|reflexivity].
  apply repeat_spec in Hin. exact Hin.
Qed.

Lemma detrend_sum_zero (buf : list Q) :
  sum_over (fun i => nth i (detrend buf) 0) samples == 0.
Proof.
  rewrite (sum_over_agree _ (fun i => nth i buf 0 - window_mean buf)).
  - rewrite sum_over_shift, samples_length, window_mean_sum.
    change (inject_Z (Z.of_nat (Z.to_nat RAW_SAMPLES))) with (inject_Z RAW_SAMPLES).
    assert (Hn : ~ inject_Z RAW_SAMPLES == 0) by discriminate.
    field. exact Hn.
  - intros i Hi. unfold samples in Hi. apply in_seq in Hi.
    rewrite detrend_nth by lia. reflexivity.
Qed.

(** The buffer handed to the transform always has FFT_SIZE entries: the
    detrended samples first, zeros from index RAW_SAMPLES on; its entries
    sum to zero, so the padded signal has no DC component either. *)
Theorem fft_in_layout (buf : list Q) :
  length (fill_fft_in buf) = Z.to_nat FFT_SIZE /\
  (forall i, (i < Z.to_nat RAW_SAMPLES)%nat ->
             nth i (fill_fft_in buf) 0 = nth i buf 0 - window_mean buf) /\
  (forall i, (Z.to_nat RAW_SAMPLES <= i)%nat -> nth i (fill_fft_in buf) 0 = 0) /\
  sum_over (fun i => nth i (fill_fft_in buf) 0) (seq 0 (Z.to_nat FFT_SIZE)) == 0.
Proof.
  split; [apply fill_fft_in_length|].
  split; [apply fill_fft_in_head|].
  split; [apply fill_fft_in_tail|].
  change (seq 0 (Z.to_nat FFT_SIZE))
    with (samples ++ seq (Z.to_nat RAW_SAMPLES) (Z.to_nat (FFT_SIZE - RAW_SAMPLES))).
  rewrite sum_over_app.
  rewrite (sum_over_zero _ (seq (Z.to_nat RAW_SAMPLES) _)).
  - rewrite Qplus_0_r.
    rewrite (sum_over_agree _ (fun i => nth i (detrend buf) 0)).
    + apply detrend_sum_zero.
    + intros i Hi. unfold samples in Hi. apply in_seq in Hi.
      rewrite fill_fft_in_head, detrend_nth by lia. reflexivity.
  - intros i Hi. apply in_seq in Hi. rewrite fill_fft_in_tail by lia. reflexivity.
Qed.

End PaddingFacts.

Section OffsetFacts.

Import Analyzer.

Lemma nth_map_offset (buf : list Q) (c : Q) (i : nat) :
  (i < length buf)%nat ->
  nth i (map (fun x => x + c) buf) 0 = nth i buf 0 + c.
Proof.
  intros Hi.
  rewrite (nth_indep _ 0 ((fun x => x + c) 0)) by (rewrite length_map; exact Hi).
  apply (map_nth (fun x => x + c)).
Qed.

Lemma window_mean_offset (buf : list Q) (c : Q) :
  length buf = Z.to_nat RAW_SAMPLES ->
  window_mean (map (fun x => x + c) buf) == window_mean buf + c.
Proof.
  intros Hlen. rewrite !window_mean_sum.
  rewrite (sum_over_agree _ (fun i => nth i buf 0 - (- c))).
  - rewrite sum_over_shift, samples_length.
    change (inject_Z (Z.of_nat (Z.to_nat RAW_SAMPLES))) with (inject_Z RAW_SAMPLES).
    assert (Hn : ~ inject_Z RAW_SAMPLES == 0) by discriminate.
    field. exact Hn.
  - intros i Hi. unfold samples in Hi. apply in_seq in Hi.
    rewrite nth_map_offset by lia. ring.
Qed.

(** A constant offset on all RAW_SAMPLES samples (gravity on the
    accelerometer, a gyroscope bias) does not reach the transform: the
    working buffer is the same, entry by entry. *)
Theorem offset_is_removed (buf : list Q) (c : Q) :
  length buf = Z.to_nat RAW_SAMPLES ->
  forall i : nat,
    nth i (fill_fft_in (map (fun x => x + c) buf)) 0 == nth i (fill_fft_in buf) 0.
Proof.
  intros Hlen i.
  destruct (Nat.lt_ge_cases i (Z.to_nat RAW_SAMPLES)) as [Hlt|Hge].
  - rewrite !fill_fft_in_head by exact Hlt.
    rewrite nth_map_offset by lia.
    rewrite (window_mean_offset buf c Hlen). ring.
  - rewrite !fill_fft_in_tail by exact Hge. reflexivity.
Qed.

Lemma offset_is_removed_witness :
  nth 3 (fill_fft_in (map (fun x => x + 1) ramp)) 0 == nth 3 (fill_fft_in ramp) 0 /\
  nth 3 (fill_fft_in ramp) 0 == -74.5.
Proof.
  split; [|reflexivity].
  apply (offset_is_removed ramp 1). reflexivity.
Defined.

Lemma fft_in_layout_witness :
  nth 3 (fill_fft_in ramp) 0 = nth 3 ramp 0 - window_mean ramp /\
  nth 200 (fill_fft_in ramp) 0 = 0.
Proof.
  destruct (fft_in_layout ramp) as (_ & Hhead & Htail & _).
  split.
  - apply (Hhead 3%nat). apply Nat.ltb_lt. reflexivity.
  - apply (Htail 200%nat). apply Nat.leb_le. reflexivity.
Defined.

End OffsetFacts.

(** ** More on the decision logic *)

Section DecisionFacts.

Import Classifier.

Lemma freezing_needs_low_walk (e : BandEnergySet) :
  low_walk e = false -> freezing e = false.
Proof.
  intros H. rewrite freezing_unfold, H, andb_false_r. reflexivity.
Qed.

(** When the walk energy is not below its threshold nothing is reported:
    the three indicators are off and the three printed flags are 0. *)
Theorem walking_silences_all (e : BandEnergySet) :
  low_walk e = false ->
  drive_leds e = mkLeds false false false /\
  print_flags e = mkTelemetry false false false.
Proof.
  intros Hw. pose proof (freezing_needs_low_walk e Hw) as Hf.
  unfold drive_leds, print_flags. rewrite Hf, Hw. split; reflexivity.
Qed.

Lemma walking_silences_all_witness :
  drive_leds (mkBands 5 100 9 0) = mkLeds false false false /\
  print_flags (mkBands 5 100 9 0) = mkTelemetry false false false.
Proof.
  apply (walking_silences_all (mkBands 5 100 9 0)). reflexivity.
Defined.

(** The printed flags against the indicators: the freeze and dyskinesia
    flags always agree with their indicators, a printed tremor flag implies
    the tremor indicator, and the tremor indicator is on with the flag
    printed as 0 exactly when freezing holds with tremor present but not
    dominant. *)
Theorem telemetry_against_leds (e : BandEnergySet) :
  printed_freeze (print_flags e) = led_freeze (drive_leds e) /\
  printed_dysk (print_flags e) = led_dysk (drive_leds e) /\
  (printed_tremor (print_flags e) = true -> led_tremor (drive_leds e) = true) /\
  (led_tremor (drive_leds e) = true /\ printed_tremor (print_flags e) = false <->
   freezing e = true /\ tremor_present e = true /\ tremor_dominates e = false).
Proof.
  change (led_freeze (drive_leds e)) with (freezingFlag e).
  change (led_dysk (drive_leds e)) with (dyskinesiaFlag e).
  change (led_tremor (drive_leds e)) with (tremorFlag e).
  rewrite freezingFlag_is_freezing, dyskinesiaFlag_unfold, tremorFlag_unfold.
  cbn [print_flags printed_freeze printed_dysk printed_tremor].
  pose proof (freezing_unfold e) as Hf.
  destruct (freezing e) eqn:E.
  - symmetry in Hf. apply andb_true_iff in Hf as [Hf Hnd].
    apply andb_true_iff in Hf as [_ Hw]. apply negb_true_iff in Hnd.
    rewrite Hw, Hnd. cbn [andb negb].
    split; [reflexivity|]. split; [reflexivity|].
    split.
    + intros H. apply andb_true_iff in H as [H _]. exact H.
    + destruct (tremor_present e), (tremor_dominates e); cbn; intuition congruence.
  - cbn [negb andb].
    split; [reflexivity|]. split; [reflexivity|].
    split; [auto|].
    destruct (low_walk e && tremor_present e && tremor_dominates e);
      intuition congruence.
Qed.

Lemma telemetry_against_leds_witness :
  led_tremor (drive_leds (mkBands 0 1 5.5 5)) = true /\
  printed_tremor (print_flags (mkBands 0 1 5.5 5)) = false.
Proof.
  apply (telemetry_against_leds (mkBands 0 1 5.5 5)).
  repeat split.
Defined.

(** For a nonnegative walk energy the freezing rule can be read without
    the division: it fires exactly when fog exceeds FOG_RATIO_THRESH times
    walk + EPSILON, walk is below its threshold and dyskinesia is not above
    its own. *)
Theorem freezing_without_division (e : BandEnergySet) :
  0 <= walk e ->
  (freezing e = true <->
   FOG_RATIO_THRESH * (walk e + EPSILON) < fog e /\
   walk e < WALK_THRESH /\
   dysk e <= DYSK_THRESH).
Proof.
  intros Hw. pose proof epsilon_positive as He.
  pose proof flt_overflow_positive as Ho.
  assert (Hd : 0 < walk e + EPSILON) by lra.
  assert (Hnz : ~ walk e + EPSILON == 0) by lra.
  assert (Hq : fog e / (walk e + EPSILON) * (walk e + EPSILON) == fog e)
    by (field; exact Hnz).
  assert (Hr : fgt (fog_ratio e) FOG_RATIO_THRESH = true <->
               FOG_RATIO_THRESH * (walk e + EPSILON) < fog e).
  { unfold fog_ratio, FOG_RATIO_THRESH.
    destruct (fdiv_positive_divisor (fog e) (walk e + EPSILON) Hd)
      as [[Hbig ->] | [[Hsmall ->] | (Hlo & Hhi & ->)]]; cbn [fgt].
    - split; [intros _ | reflexivity].
      rewrite <- Hq. apply Qmult_lt_compat_r; [exact Hd | lra].
    - split; [discriminate|]. intros H. exfalso.
      assert (H3 : 3.0 < fog e / (walk e + EPSILON))
        by (apply Qlt_shift_div_l; assumption).
      lra.
    - rewrite Qgtb_true. split.
      + intros H. rewrite <- Hq. apply Qmult_lt_compat_r; assumption.
      + intros H. apply Qlt_shift_div_l; assumption. }
  rewrite freezing_unfold.
  rewrite !andb_true_iff, negb_true_iff, Hr.
  unfold low_walk, dysk_present.
  rewrite Qltb_true, Qgtb_false.
  tauto.
Qed.

Lemma freezing_without_division_witness :
  freezing (mkBands 1 4 0 5) = true /\
  freezing (mkBands 1 3 0 5) = false.
Proof.
  split.
  - apply (freezing_without_division (mkBands 1 4 0 5)); [discriminate|].
    cbn. repeat split; discriminate.
  - destruct (freezing (mkBands 1 3 0 5)) eqn:E; [|reflexivity].
    apply (freezing_without_division (mkBands 1 3 0 5)) in E; [|discriminate].
    destruct E as [E _]. discriminate E.
Defined.

End DecisionFacts.

(** ** Printing a float *)

Section ConsoleFacts.

Import Console.

Lemma to_int_nonneg (v : Q) :
  0 <= v -> to_int v = Qfloor v /\ (0 <= Qfloor v)%Z.
Proof.
  intros Hv. unfold to_int.
  destruct (Qle_bool 0 v) eqn:E.
  - split; [reflexivity|]. apply (Qfloor_resp_le 0 v Hv).
  - apply Qle_bool_iff in Hv. congruence.
Qed.

Lemma to_int_neg (v : Q) :
  v < 0 -> to_int v = Qceiling v /\ (Qceiling v <= 0)%Z.
Proof.
  intros Hv. unfold to_int.
  destruct (Qle_bool 0 v) eqn:E.
  - apply Qle_bool_iff in E. lra.
  - split; [reflexivity|].
    unfold Qceiling.
    assert (H : (0 <= Qfloor (- v))%Z) by (apply (Qfloor_resp_le 0 (- v)); lra).
    lia.
Qed.

Lemma inject_Z_lt_1000 (n : Z) : inject_Z n < 1000 -> (n <= 999)%Z.
Proof.
  intros H. change 1000 with (inject_Z 1000) in H.
  rewrite <- Zlt_Qlt in H. lia.
Qed.

Lemma inject_Z_gt_m1000 (n : Z) : - (1000) < inject_Z n -> (-999 <= n)%Z.
Proof.
  intros H. change (- (1000)) with (inject_Z (-1000)) in H.
  rewrite <- Zlt_Qlt in H. lia.
Qed.

(** The fields of a nonnegative value: floor and thousandths, rounded
    down. *)
Lemma float_fields_nonneg (v : Q) :
  0 <= v ->
  exists ip fp : Z,
    float_fields v = (ip, fp) /\ (0 <= ip)%Z /\ (0 <= fp <= 999)%Z /\
    inject_Z ip + inject_Z fp / 1000 <= v /\
    v < inject_Z ip + (inject_Z fp + 1) / 1000.
Proof.
  intros Hv. unfold float_fields.
  destruct (to_int_nonneg v Hv) as [-> Hip].
  pose proof (Qfloor_le v) as Hlo. pose proof (Qlt_floor v) as Hhi.
  rewrite inject_Z_plus in Hhi. change (inject_Z 1) with 1 in Hhi.
  set (ip := Qfloor v) in *.
  assert (Hr : 0 <= (v - inject_Z ip) * 1000) by lra.
  destruct (to_int_nonneg _ Hr) as [-> Hfp].
  pose proof (Qfloor_le ((v - inject_Z ip) * 1000)) as Flo.
  pose proof (Qlt_floor ((v - inject_Z ip) * 1000)) as Fhi.
  rewrite inject_Z_plus in Fhi. change (inject_Z 1) with 1 in Fhi.
  set (fp := Qfloor ((v - inject_Z ip) * 1000)) in *.
  assert (Hfp' : (fp <= 999)%Z) by (apply inject_Z_lt_1000; lra).
  destruct (Z.ltb_spec fp 0); [lia|].
  exists ip, fp. repeat split; try assumption; try lia.
  - apply Qle_shift_div_r in Flo; lra.
  - assert (H1 : (inject_Z fp + 1) / 1000 * 1000 == inject_Z fp + 1) by field.
    lra.
Qed.

(** The fields of a negative value: ceiling and thousandths of the
    distance below it, rounded down. *)
Lemma float_fields_neg (v : Q) :
  v < 0 ->
  exists ip fp : Z,
    float_fields v = (ip, fp) /\ (ip <= 0)%Z /\ (0 <= fp <= 999)%Z /\
    inject_Z ip - (inject_Z fp + 1) / 1000 < v /\
    v <= inject_Z ip - inject_Z fp / 1000.
Proof.
  intros Hv. unfold float_fields.
  destruct (to_int_neg v Hv) as [-> Hip].
  pose proof (Qle_ceiling v) as Hhi. pose proof (Qceiling_lt v) as Hlo.
  unfold Z.sub in Hlo. rewrite inject_Z_plus in Hlo.
  change (inject_Z (- (1))) with (- (1)) in Hlo.
  set (ip := Qceiling v) in *.
  set (r := (v - inject_Z ip) * 1000).
  assert (Hr1 : r <= 0) by (unfold r; lra).
  assert (Hr2 : - (1000) < r) by (unfold r; lra).
  assert (D1 : (inject_Z 0 + 1) / 1000 == 1 / 1000) by reflexivity.
  destruct (Qlt_le_dec r 0) as [Hneg|Hzero].
  - destruct (to_int_neg r Hneg) as [-> Hc].
    pose proof (Qle_ceiling r) as Chi. pose proof (Qceiling_lt r) as Clo.
    unfold Z.sub in Clo. rewrite inject_Z_plus in Clo.
    change (inject_Z (- (1))) with (- (1)) in Clo.
    set (c := Qceiling r) in *.
    assert (Hc' : (-999 <= c)%Z) by (apply inject_Z_gt_m1000; lra).
    assert (Hopp : inject_Z (- c) == - inject_Z c)
      by (rewrite inject_Z_opp; reflexivity).
    assert (Hfield1 : (inject_Z (- c) + 1) / 1000 * 1000 == inject_Z (- c) + 1)
      by field.
    assert (Hfield2 : inject_Z (- c) / 1000 * 1000 == inject_Z (- c)) by field.
    replace (if (c <? 0)%Z then (- c)%Z else c) with (- c)%Z
      by (destruct (Z.ltb_spec c 0); lia).
    exists ip, (- c)%Z. unfold r in *.
    split; [reflexivity|]. split; [exact Hip|]. split; [lia|].
    split; lra.
  - destruct (to_int_nonneg r Hzero) as [-> _].
    assert (Hr0 : r == 0) by lra.
    rewrite (Qfloor_comp r 0 Hr0). change (Qfloor 0) with 0%Z.
    cbn [Z.ltb Z.compare].
    exists ip, 0%Z. unfold r in *.
    split; [reflexivity|]. split; [exact Hip|]. split; [lia|].
    change (inject_Z 0) with 0.
    assert (D2 : (0 + 1) / 1000 == 1 / 1000) by reflexivity.
    assert (D3 : 0 / 1000 == 0) by reflexivity.
    rewrite D2, D3.
    assert (D4 : 1 / 1000 * 1000 == 1) by reflexivity.
    set (q := 1 / 1000) in *. clearbody q.
    split; lra.
Qed.

Lemma float_fields_fraction (v : Q) : (0 <= snd (float_fields v) <= 999)%Z.
Proof.
  destruct (Qlt_le_dec v 0) as [Hneg|Hpos].
  - destruct (float_fields_neg v Hneg) as (ip & fp & -> & _ & H & _). exact H.
  - destruct (float_fields_nonneg v Hpos) as (ip & fp & -> & _ & H & _). exact H.
Qed.

(** [print_float] truncates toward zero to three decimals: for [v >= 0]
    the printed [ip.fp] is the largest multiple of 1/1000 not above [v],
    for [v < 0] the fields give the smallest multiple of 1/1000 not below
    [v] as [ip] minus [fp] thousandths; [fp] always lies in 0..999. *)
Theorem print_float_truncates (v : Q) :
  in_int_range v ->
  (0 <= snd (float_fields v) <= 999)%Z /\
  (0 <= v ->
   inject_Z (fst (float_fields v)) + inject_Z (snd (float_fields v)) / 1000 <= v /\
   v < inject_Z (fst (float_fields v)) + (inject_Z (snd (float_fields v)) + 1) / 1000) /\
  (v < 0 ->
   inject_Z (fst (float_fields v)) - (inject_Z (snd (float_fields v)) + 1) / 1000 < v /\
   v <= inject_Z (fst (float_fields v)) - inject_Z (snd (float_fields v)) / 1000).
Proof.
  intros _. split; [apply float_fields_fraction|]. split.
  - intros Hv.
    destruct (float_fields_nonneg v Hv) as (ip & fp & -> & _ & _ & H1 & H2).
    split; assumption.
  - intros Hv.
    destruct (float_fields_neg v Hv) as (ip & fp & -> & _ & _ & H1 & H2).
    split; assumption.
Qed.

Lemma print_float_truncates_witness :
  float_fields 12.0049 = (12%Z, 4%Z) /\
  float_fields (-3.0625) = ((-3)%Z, 62%Z) /\
  (inject_Z (fst (float_fields 12.0049))
     + inject_Z (snd (float_fields 12.0049)) / 1000 <= 12.0049 /\
   12.0049 < inject_Z (fst (float_fields 12.0049))
     + (inject_Z (snd (float_fields 12.0049)) + 1) / 1000).
Proof.
  split; [reflexivity|]. split; [reflexivity|].
  apply (print_float_truncates 12.0049).
  - split; reflexivity.
  - discriminate.
Defined.

Lemma decimal03_width_checked :
  forallb (fun n => Nat.eqb (String.length (decimal03 (Z.of_nat n))) 3)
          (seq 0 1000) = true.
Proof. vm_compute. reflexivity. Qed.

Lemma string_length_append (a b : string) :
  String.length (a ++ b)%string = (String.length a + String.length b)%nat.
Proof.
  induction a as [|c a IH]; [reflexivity|].
  cbn [String.append String.length]. rewrite IH. reflexivity.
Qed.

(** For a value within the range of [int], the fraction is printed with
    exactly three digits, so the whole text is four characters longer than
    the label followed by the integer part. *)
Theorem print_float_three_digits (label : string) (v : Q) :
  in_int_range v ->
  print_float label v =
    (label ++ decimal (fst (float_fields v)) ++ "."
           ++ decimal03 (snd (float_fields v)))%string /\
  String.length (decimal03 (snd (float_fields v))) = 3%nat /\
  String.length (print_float label v) =
    (String.length label + String.length (decimal (fst (float_fields v))) + 4)%nat.
Proof.
  intros _.
  assert (Htext : print_float label v =
                  (label ++ decimal (fst (float_fields v)) ++ "."
                         ++ decimal03 (snd (float_fields v)))%string).
  { unfold print_float. now destruct (float_fields v). }
  assert (Hthree : String.length (decimal03 (snd (float_fields v))) = 3%nat).
  { pose proof (float_fields_fraction v) as Hfp.
    pose proof decimal03_width_checked as Hall.
    rewrite forallb_forall in Hall.
    specialize (Hall (Z.to_nat (snd (float_fields v)))).
    rewrite Z2Nat.id in Hall by lia.
    apply Nat.eqb_eq, Hall, in_seq. lia. }
  split; [exact Htext|]. split; [exact Hthree|].
  rewrite Htext, !string_length_append, Hthree.
  cbn [String.length]. lia.
Qed.

Lemma print_float_three_digits_witness :
  print_float "Walk=" 12.0049 = "Walk=12.004"%string /\
  String.length (decimal03 (snd (float_fields 12.0049))) = 3%nat /\
  String.length (print_float "Walk=" 12.0049) = 11%nat.
Proof.
  assert (Hr : in_int_range 12.0049) by (split; reflexivity).
  destruct (print_float_three_digits "Walk=" 12.0049 Hr) as (_ & H3 & Hlen).
  split; [reflexivity|]. split; [exact H3 | exact Hlen].
Defined.

(** A value strictly between -1 and 0 is printed without its sign: the
    text is that of its absolute value. *)
Theorem print_float_drops_sign (label : string) (v : Q) :
  - (1) < v -> v < 0 ->
  float_fields v = float_fields (- v) /\
  fst (float_fields v) = 0%Z /\
  print_float label v = print_float label (- v).
Proof.
  intros Hlo Hhi.
  assert (Hfields : float_fields v = float_fields (- v) /\ fst (float_fields v) = 0%Z).
  { unfold float_fields.
    destruct (to_int_neg v Hhi) as [-> _].
    assert (Hpos : 0 <= - v) by lra.
    destruct (to_int_nonneg (- v) Hpos) as [-> _].
    assert (Hc : Qceiling v = 0%Z).
    { pose proof (Qle_ceiling v) as H1. pose proof (Qceiling_lt v) as H2.
      unfold Z.sub in H2. rewrite inject_Z_plus in H2.
      change (inject_Z (- (1))) with (- (1)) in H2.
      assert (H3 : inject_Z (Qceiling v) < inject_Z 1)
        by (change (inject_Z 1) with 1; lra).
      assert (H4 : inject_Z (-1) < inject_Z (Qceiling v))
        by (change (inject_Z (-1)) with (- (1)); lra).
      rewrite <- Zlt_Qlt in H3, H4. lia. }
    assert (Hf : Qfloor (- v) = 0%Z).
    { unfold Qceiling in Hc. lia. }
    rewrite Hc, Hf. cbn [fst].
    assert (Hneg : (v - inject_Z 0) * 1000 < 0) by (change (inject_Z 0) with 0; lra).
    assert (Hnn : 0 <= (- v - inject_Z 0) * 1000) by (change (inject_Z 0) with 0; lra).
    destruct (to_int_neg _ Hneg) as [-> Hcl].
    destruct (to_int_nonneg _ Hnn) as [-> Hfl].
    unfold Qceiling in *.
    assert (Heq : - ((v - inject_Z 0) * 1000) == (- v - inject_Z 0) * 1000) by ring.
    rewrite (Qfloor_comp _ _ Heq) in *.
    set (F := Qfloor ((- v - inject_Z 0) * 1000)) in *.
    split; [|reflexivity].
    f_equal.
    destruct (Z.ltb_spec (- F) 0), (Z.ltb_spec F 0); lia. }
  destruct Hfields as [Hf H0].
  split; [exact Hf|]. split; [exact H0|].
  unfold print_float. rewrite Hf. reflexivity.
Qed.

Lemma print_float_drops_sign_witness :
  print_float "FogRatio=" (-0.25) = "FogRatio=0.250"%string /\
  print_float "FogRatio=" (-0.25) = print_float "FogRatio=" (- (-0.25)).
Proof.
  split; [reflexivity|].
  apply (print_float_drops_sign "FogRatio=" (-0.25)); reflexivity.
Defined.

End ConsoleFacts.

(** ** The demo: peak search and moving average *)

Section DemoFacts.

Import Demo.

(** A search started from [acc] either keeps [acc], every visited bin being
    at most its value, or ends on a visited bin with a strictly larger
    value that is the first to reach the maximum. *)
Lemma peak_fold (mag : list Q) (l : list nat) (acc : Q * nat) :
  let r := fold_left (peak_step mag) l acc in
  (r = acc /\ forall i, In i l -> nth i mag 0 <= fst acc) \/
  (exists l1 l2 : list nat,
     l = l1 ++ snd r :: l2 /\
     fst r = nth (snd r) mag 0 /\
     fst acc < fst r /\
     (forall i, In i l1 -> nth i mag 0 < fst r) /\
     (forall i, In i l2 -> nth i mag 0 <= fst r)).
Proof.
  revert acc. induction l as [|k l IH]; intros acc; cbn [fold_left].
  - left. split; [reflexivity|]. intros i [].
  - destruct (Qgtb (nth k mag 0) (fst acc)) eqn:E.
    + assert (Hs : peak_step mag acc k = (nth k mag 0, k))
        by (unfold peak_step; rewrite E; reflexivity).
      rewrite Hs. specialize (IH (nth k mag 0, k)). cbn zeta in IH.
      set (r := fold_left (peak_step mag) l (nth k mag 0, k)) in *.
      cbn [fst snd] in IH.
      apply Qgtb_true in E. right.
      destruct IH as [[Hr Hle] | (l1 & l2 & Hl & Hv & Hlt & H1 & H2)].
      * exists [], l. rewrite Hr. cbn [fst snd app].
        split; [reflexivity|]. split; [reflexivity|]. split; [exact E|].
        split; [intros i [] | exact Hle].
      * exists (k :: l1), l2.
        split; [cbn [app]; f_equal; exact Hl|].
        split; [exact Hv|]. split; [lra|].
        split; [|exact H2].
        intros i [<-|Hi]; [exact Hlt | apply H1; exact Hi].
    + assert (Hs : peak_step mag acc k = acc)
        by (unfold peak_step; rewrite E; reflexivity).
      rewrite Hs. specialize (IH acc). cbn zeta in IH.
      set (r := fold_left (peak_step mag) l acc) in *.
      apply Qgtb_false in E.
      destruct IH as [[Hr Hle] | (l1 & l2 & Hl & Hv & Hlt & H1 & H2)].
      * left. split; [exact Hr|].
        intros i [<-|Hi]; [exact E | apply Hle; exact Hi].
      * right. exists (k :: l1), l2.
        split; [cbn [app]; f_equal; exact Hl|].
        split; [exact Hv|]. split; [exact Hlt|].
        split; [|exact H2].
        intros i [<-|Hi]; [lra | apply H1; exact Hi].
Qed.

(** The elements before a position of [seq] are exactly the smaller ones. *)
Lemma seq_split_before (s n b : nat) (l1 l2 : list nat) :
  seq s n = l1 ++ b :: l2 ->
  (s <= b < s + n)%nat /\ forall i, (s <= i < b)%nat -> In i l1.
Proof.
  revert s n. induction l1 as [|a l1 IH]; intros s n H.
  - destruct n as [|n]; [discriminate|]. cbn [seq app] in H.
    injection H as <- _. split; [lia | intros i Hi; lia].
  - destruct n as [|n]; [discriminate|]. cbn [seq app] in H.
    injection H as <- H. destruct (IH _ _ H) as [Hb Hin].
    split; [lia|].
    intros i Hi. destruct (Nat.eq_dec i s) as [->|Hne]; [now left|].
    right. apply Hin. lia.
Qed.

Lemma find_peak_cases (mag : list Q) :
  (find_peak mag = (0, 0%nat) /\
   forall i, In i peak_bins -> nth i mag 0 <= fst (0, 0%nat)) \/
  (exists l1 l2 : list nat,
     peak_bins = l1 ++ snd (find_peak mag) :: l2 /\
     fst (find_peak mag) = nth (snd (find_peak mag)) mag 0 /\
     fst (0, 0%nat) < fst (find_peak mag) /\
     (forall i, In i l1 -> nth i mag 0 < fst (find_peak mag)) /\
     (forall i, In i l2 -> nth i mag 0 <= fst (find_peak mag))).
Proof. exact (peak_fold mag peak_bins (0, 0%nat)). Qed.

(** The peak search returns ([max_val], [max_bin]) with either no bin of
    1 .. FFT_SIZE/2 - 1 above zero and the pair (0, 0), or [max_bin] the
    first bin of that range holding the largest magnitude, which is
    positive; bin 0 is never looked at. *)
Theorem find_peak_is_first_maximum (mag : list Q) :
  (forall i, (1 <= i < Z.to_nat (DEMO_FFT_SIZE / 2))%nat ->
             nth i mag 0 <= fst (find_peak mag)) /\
  ((find_peak mag = (0, 0%nat) /\
    forall i, (1 <= i < Z.to_nat (DEMO_FFT_SIZE / 2))%nat -> nth i mag 0 <= 0) \/
   ((1 <= snd (find_peak mag) < Z.to_nat (DEMO_FFT_SIZE / 2))%nat /\
    fst (find_peak mag) = nth (snd (find_peak mag)) mag 0 /\
    0 < fst (find_peak mag) /\
    forall i, (1 <= i < snd (find_peak mag))%nat ->
              nth i mag 0 < fst (find_peak mag))).
Proof.
  pose proof (find_peak_cases mag) as H.
  assert (Hbins : forall i, (1 <= i < Z.to_nat (DEMO_FFT_SIZE / 2))%nat <->
                            In i peak_bins).
  { intros i. unfold peak_bins. rewrite in_seq.
    change (Z.to_nat (DEMO_FFT_SIZE / 2)) with 128%nat. lia. }
  destruct H as [[Hr Hle] | (l1 & l2 & Hl & Hv & Hlt & H1 & H2)].
  - split.
    + intros i Hi. rewrite Hr. apply Hle, Hbins, Hi.
    + left. split; [exact Hr|]. intros i Hi. apply Hle, Hbins, Hi.
  - cbn [fst] in Hlt.
    destruct (seq_split_before _ _ _ _ _ Hl) as [Hb Hin].
    split.
    + intros i Hi. apply Hbins in Hi. rewrite Hl in Hi.
      apply in_app_or in Hi as [Hi|[<-|Hi]].
      * apply Qlt_le_weak, H1, Hi.
      * rewrite Hv. apply Qle_refl.
      * apply H2, Hi.
    + right. split.
      { change (Z.to_nat (DEMO_FFT_SIZE / 2)) with 128%nat.
        change (Z.to_nat (DEMO_FFT_SIZE / 2) - 1)%nat with 127%nat in Hb. lia. }
      split; [exact Hv|]. split; [exact Hlt|].
      intros i Hi. apply H1, Hin. lia.
Qed.

Lemma find_peak_is_first_maximum_witness :
  find_peak (map (fun q => q * 3) (Extractor.impulse 20)
             ++ [0]) = (3, 20%nat) /\
  nth 20 (map (fun q => q * 3) (Extractor.impulse 20) ++ [0]) 0
    <= fst (find_peak (map (fun q => q * 3) (Extractor.impulse 20) ++ [0])).
Proof.
  split; [reflexivity|].
  apply (find_peak_is_first_maximum
           (map (fun q => q * 3) (Extractor.impulse 20) ++ [0])).
  split; [apply Nat.leb_le | apply Nat.ltb_lt]; reflexivity.
Defined.

Lemma find_peak_bin_range (mag : list Q) :
  (snd (find_peak mag) < Z.to_nat (DEMO_FFT_SIZE / 2))%nat /\
  (Qgtb (fst (find_peak mag)) 1.0 = true -> (1 <= snd (find_peak mag))%nat).
Proof.
  pose proof (find_peak_cases mag) as H.
  destruct H as [[-> _] | (l1 & l2 & Hl & _)].
  - cbn [fst snd]. split; [apply Nat.ltb_lt; reflexivity|].
    intros H. discriminate H.
  - destruct (seq_split_before _ _ _ _ _ Hl) as [Hb _].
    change (Z.to_nat (DEMO_FFT_SIZE / 2) - 1)%nat with 127%nat in Hb.
    change (Z.to_nat (DEMO_FFT_SIZE / 2)) with 128%nat.
    split; [lia | intros _; lia].
Qed.

Lemma find_peak_upper (mag : list Q) (i : nat) :
  (1 <= i < Z.to_nat (DEMO_FFT_SIZE / 2))%nat ->
  nth i mag 0 <= fst (find_peak mag).
Proof.
  intros Hi.
  assert (Hin : In i peak_bins).
  { unfold peak_bins. apply in_seq.
    change (Z.to_nat (DEMO_FFT_SIZE / 2)) with 128%nat in *. lia. }
  destruct (find_peak_cases mag) as [[Hr Hle] | (l1 & l2 & Hl & Hv & _ & H1 & H2)].
  - rewrite Hr. apply Hle, Hin.
  - rewrite Hl in Hin. apply in_app_or in Hin as [Hin|[<-|Hin]].
    + apply Qlt_le_weak, H1, Hin.
    + rewrite Hv. apply Qle_refl.
    + apply H2, Hin.
Qed.

(** The reported frequency is 0 when no bin of 1 .. FFT_SIZE/2 - 1 exceeds
    the noise threshold 1.0; as soon as one of them does, it is the centre
    [max_bin * FREQ_BIN_SIZE] of the peak bin, whose magnitude exceeds 1.0:
    at least the bin width and below half the sampling rate. *)
Theorem dominant_freq_range (mag : list Q) :
  ((forall i, (1 <= i < Z.to_nat (DEMO_FFT_SIZE / 2))%nat -> nth i mag 0 <= 1.0) ->
   dominant_freq mag = 0.0) /\
  (dominant_freq mag = 0.0 \/
   (dominant_freq mag
      = inject_Z (Z.of_nat (snd (find_peak mag))) * FREQ_BIN_SIZE /\
    FREQ_BIN_SIZE <= dominant_freq mag /\
    dominant_freq mag < DEMO_SAMPLE_RATE / 2)) /\
  ((exists i, (1 <= i < Z.to_nat (DEMO_FFT_SIZE / 2))%nat /\ 1.0 < nth i mag 0) ->
   dominant_freq mag
     = inject_Z (Z.of_nat (snd (find_peak mag))) * FREQ_BIN_SIZE /\
   (1 <= snd (find_peak mag) < Z.to_nat (DEMO_FFT_SIZE / 2))%nat /\
   1.0 < nth (snd (find_peak mag)) mag 0 /\
   FREQ_BIN_SIZE <= dominant_freq mag /\
   dominant_freq mag < DEMO_SAMPLE_RATE / 2).
Proof.
  destruct (find_peak_bin_range mag) as [Hhi Hlo].
  assert (Hrange : Qgtb (fst (find_peak mag)) 1.0 = true ->
                   FREQ_BIN_SIZE
                     <= inject_Z (Z.of_nat (snd (find_peak mag))) * FREQ_BIN_SIZE /\
                   inject_Z (Z.of_nat (snd (find_peak mag))) * FREQ_BIN_SIZE
                     < DEMO_SAMPLE_RATE / 2).
  { intros E. specialize (Hlo E).
    change (Z.to_nat (DEMO_FFT_SIZE / 2)) with 128%nat in Hhi.
    assert (H1 : inject_Z 1 <= inject_Z (Z.of_nat (snd (find_peak mag))))
      by (rewrite <- Zle_Qle; lia).
    assert (H2 : inject_Z (Z.of_nat (snd (find_peak mag))) <= inject_Z 127)
      by (rewrite <- Zle_Qle; lia).
    change (inject_Z 1) with 1 in H1. change (inject_Z 127) with 127 in H2.
    assert (Hb : FREQ_BIN_SIZE == 13 / 32) by reflexivity.
    assert (Hn : DEMO_SAMPLE_RATE / 2 == 52) by reflexivity.
    rewrite Hb, Hn.
    set (b := inject_Z (Z.of_nat (snd (find_peak mag)))) in *.
    assert (Hc : 13 / 32 * 32 == 13) by reflexivity.
    set (c := 13 / 32) in *. clearbody c b. split; nra. }
  unfold dominant_freq. split; [|split].
  - intros Hall.
    destruct (Qgtb (fst (find_peak mag)) 1.0) eqn:E; [|reflexivity].
    specialize (Hlo eq_refl). apply Qgtb_true in E.
    pose proof (find_peak_cases mag) as H.
    destruct H as [[Hr _] | (l1 & l2 & _ & Hv & _)].
    + rewrite Hr in E. cbn [fst] in E. discriminate E.
    + rewrite Hv in E.
      specialize (Hall (snd (find_peak mag)) (conj Hlo Hhi)). lra.
  - destruct (Qgtb (fst (find_peak mag)) 1.0) eqn:E; [right | left; reflexivity].
    split; [reflexivity | apply Hrange; reflexivity].
  - intros (i & Hi & Hbig).
    pose proof (find_peak_upper mag i Hi) as Hup.
    assert (E : Qgtb (fst (find_peak mag)) 1.0 = true) by (apply Qgtb_true; lra).
    rewrite E. specialize (Hlo E).
    split; [reflexivity|]. split; [split; assumption|].
    split; [|apply Hrange; exact E].
    destruct (find_peak_cases mag) as [[Hr _] | (l1 & l2 & _ & Hv & _)].
    + rewrite Hr in E. discriminate E.
    + rewrite <- Hv. apply Qgtb_true. exact E.
Qed.

Lemma dominant_freq_range_witness :
  dominant_freq (Extractor.impulse 20) = 0.0 /\
  dominant_freq (map (fun q => q * 1.5) (Extractor.impulse 20))
    = inject_Z 20 * FREQ_BIN_SIZE /\
  inject_Z 20 * FREQ_BIN_SIZE == 8.125.
Proof.
  destruct (dominant_freq_range (Extractor.impulse 20)) as (Hzero & _ & _).
  destruct (dominant_freq_range (map (fun q => q * 1.5) (Extractor.impulse 20)))
    as (_ & _ & Hpeak).
  split; [apply Hzero; intros i _; apply impulse_le_one|].
  split; [|reflexivity].
  destruct Hpeak as (Hf & _).
  - exists 20%nat. split; [split; [apply Nat.leb_le | apply Nat.ltb_lt]; reflexivity|].
    reflexivity.
  - rewrite Hf. reflexivity.
Defined.

End DemoFacts.

Section MovingAverageFacts.

Import Demo.

Variable rfft_mag : list Q -> list Q.

Lemma insert_sum (l : list Q) (i : nat) (v : Q) :
  (i < length l)%nat ->
  nth i (<[i := v]> l) 0 = v /\
  fold_right Qplus 0 (<[i := v]> l) == fold_right Qplus 0 l - nth i l 0 + v.
Proof.
  revert i. induction l as [|x l IH]; intros i Hi; [cbn in Hi; lia|].
  destruct i as [|i].
  - cbn. split; [reflexivity | ring].
  - cbn [length] in Hi. destruct (IH i ltac:(lia)) as [Hn Hs].
    cbn [nth fold_right]. split.
    + exact Hn.
    + change (<[S i := v]> (x :: l)) with (x :: <[i := v]> l).
      cbn [fold_right]. rewrite Hs. ring.
Qed.

Lemma store_in_range (buf : list Q) (i : Z) (v : Q) :
  (0 <= i < Z.of_nat (length buf))%Z ->
  store buf i v = <[Z.to_nat i := v]> buf.
Proof.
  intros Hi. unfold store.
  destruct (Z.leb_spec 0 i); [|lia].
  destruct (Z.ltb_spec i (Z.of_nat (length buf))); [|lia].
  reflexivity.
Qed.

(** One update of the demo keeps its globals consistent: the sizes and the
    index ranges are kept, both indices advance modulo the size of their
    array, the newest reading sits at the old moving-average index, the
    running sum still equals the sum of the buffer (in exact arithmetic), so
    the printed average is the mean of the ten buffer entries, and the
    reported frequency changes only on the update that fills the transform
    buffer. *)
Theorem dsp_update_keeps_invariant (st : dsp) (raw_val : Z) :
  dsp_ok st ->
  dsp_ok (fst (dsp_update rfft_mag st raw_val)) /\
  ma_idx (fst (dsp_update rfft_mag st raw_val)) = ((ma_idx st + 1) mod MA_WINDOW)%Z /\
  fft_idx (fst (dsp_update rfft_mag st raw_val))
    = ((fft_idx st + 1) mod DEMO_FFT_SIZE)%Z /\
  ma_buffer (fst (dsp_update rfft_mag st raw_val)) !! Z.to_nat (ma_idx st)
    = Some (raw_acc (snd (dsp_update rfft_mag st raw_val))) /\
  filtered_acc (snd (dsp_update rfft_mag st raw_val)) ==
    fold_right Qplus 0 (ma_buffer (fst (dsp_update rfft_mag st raw_val)))
    / inject_Z MA_WINDOW /\
  ((fft_idx st < DEMO_FFT_SIZE - 1)%Z ->
   current_dominant_freq (fst (dsp_update rfft_mag st raw_val))
     = current_dominant_freq st).
Proof.
  intros (Hlm & Hlf & Hmi & Hfi & Hsum).
  change MA_WINDOW with 10%Z in *. change DEMO_FFT_SIZE with 256%Z in *.
  unfold dsp_update.
  change MA_WINDOW with 10%Z. change DEMO_FFT_SIZE with 256%Z.
  cbn [fst snd ma_buffer ma_idx ma_sum fft_input fft_idx current_dominant_freq
       raw_acc filtered_acc].
  set (acc_z := inject_Z raw_val * 0.244 / 1000.0).
  rewrite (store_in_range (ma_buffer st)) by lia.
  assert (Hi : (Z.to_nat (ma_idx st) < length (ma_buffer st))%nat) by lia.
  destruct (insert_sum (ma_buffer st) (Z.to_nat (ma_idx st)) acc_z Hi) as [Hn Hs].
  rewrite Hn.
  assert (Hsum' : ma_sum st - nth (Z.to_nat (ma_idx st)) (ma_buffer st) 0 + acc_z
                  == fold_right Qplus 0 (<[Z.to_nat (ma_idx st) := acc_z]> (ma_buffer st))).
  { rewrite Hs, Hsum. reflexivity. }
  assert (Hrem : Z.rem (ma_idx st + 1) 10 = ((ma_idx st + 1) mod 10)%Z)
    by (apply Z.rem_mod_nonneg; lia).
  rewrite Hrem.
  pose proof (Z.mod_pos_bound (ma_idx st + 1) 10 eq_refl) as Hb.
  assert (Hfidx : (if (fft_idx st + 1 >=? 256)%Z then 0%Z else (fft_idx st + 1)%Z)
                  = ((fft_idx st + 1) mod 256)%Z).
  { destruct (Z.geb_spec (fft_idx st + 1) 256).
    - assert (fft_idx st = 255%Z) as -> by lia. reflexivity.
    - rewrite Z.mod_small by lia. reflexivity. }
  rewrite Hfidx.
  pose proof (Z.mod_pos_bound (fft_idx st + 1) 256 eq_refl) as Hb2.
  split.
  { unfold dsp_ok.
    cbn [ma_buffer ma_idx ma_sum fft_input fft_idx].
    change MA_WINDOW with 10%Z. change DEMO_FFT_SIZE with 256%Z.
    rewrite length_insert, store_length.
    repeat split; try assumption; try lia. }
  split; [reflexivity|]. split; [reflexivity|].
  split; [apply list_lookup_insert_eq; exact Hi|].
  split.
  { rewrite Hsum'. reflexivity. }
  intros Hlt. destruct (Z.geb_spec (fft_idx st + 1) 256); [lia | reflexivity].
Qed.

Lemma init_dsp_ok : dsp_ok init_dsp.
Proof.
  unfold dsp_ok, init_dsp.
  cbn [ma_buffer ma_idx ma_sum fft_input fft_idx].
  rewrite !repeat_length.
  change MA_WINDOW with 10%Z. change DEMO_FFT_SIZE with 256%Z.
  repeat split; try lia.
Qed.

End MovingAverageFacts.

Section MovingAverageWitness.

Import Demo.

Lemma dsp_update_keeps_invariant_witness :
  dsp_ok (fst (dsp_update silent_spectrum init_dsp 4100)) /\
  ma_idx (fst (dsp_update silent_spectrum init_dsp 4100)) = 1%Z /\
  filtered_acc (snd (dsp_update silent_spectrum init_dsp 4100)) == 0.10004.
Proof.
  destruct (dsp_update_keeps_invariant silent_spectrum init_dsp 4100 init_dsp_ok)
    as (Hok & Hidx & _).
  split; [exact Hok|]. split; [exact Hidx | reflexivity].
Defined.

End MovingAverageWitness.
